(* ===== verification/_CoqProject ===== *)
-Q . S2P
Prelude.v
Fitness.v
Random.v
Particle.v
Move.v
Init.v
Sweep.v
Driver.v
Draws.v
Program.v
Display.v
Binary64.v
