(* ===== verification/Prelude.v ===== *)
(** * A verification library for [src/pso_linReg.c]: 1-D particle swarm optimisation

    ** The program
    [src/pso_linReg.c] maximises [fit x = |8000 + x(-10000 + x(-0.8 + x))|]
    over [min_pos, max_pos] = [-100, 100] with a swarm of [particle_cnt] = 2000
    particles.  Its parts, and how they interact:
    - [fit] (lines 46-51): the objective, a pure function of one double;
    - [struct tag_particle] (61-67): position, velocity, fitness and the
      personal best (position, fitness) of one particle;
    - the globals (75-79): the parameters [w c1 c2 max_v max_pos min_pos
      particle_cnt], set once by [main], and the global best [gbest], a whole
      [particle] record copied with [memcpy] from the swarm;
    - [RND()] (85): [rand()/RAND_MAX], a draw in [0,1] from the C library's
      process-wide generator, seeded once by [srand(time(NULL))];
    - [AllocateParticle] (123-126): [malloc] of [particle_cnt] records;
    - [ParticleInit] (129-148): seeds the generator, draws every particle's
      position in [min_pos, max_pos] and velocity in [0, max_v], sets its
      personal best, and seeds/raises [gbest] (particle 0 unconditionally);
    - [ParticleMove] (151-186): one generation; snapshots [gbest.position],
      then for [i = 0 .. particle_cnt-1] draws two numbers, updates velocity
      (clamped to [-max_v, max_v]) and position (clamped to the bounds),
      recomputes fitness, raises the personal best and, live, the global best;
    - [main] (94-118): sets the parameters, allocates, initialises, runs
      [max_itera] = 100000 generations, prints [gbest] ([ParticleDisplay],
      195-204) and the known optimum [fit(-57.469)], frees the swarm
      ([ParticleRelease], 189-192).

    ** The library (files in dependency order, see [_CoqProject])
    - [Prelude] (this file): the [St] state monad (stdpp's [mret]/[≫=]
      notation), the C [for] loop as [for_from]/[for_loop] with its loop-
      invariant and loop-relation rules, the boolean comparison [Qltb] on [Q]
      with its reflection lemma and the [qcase] tactic, shared lemmas on [Q]
      and lists, rule induction along [rtc] ([rtc_preserved]) and the [pso]
      hint database.
    - [Fitness]: [fit] as written (Horner form, [Qabs]); its expanded cubic,
      its [Qeq]-compatibility ([Proper]), and its bounds on [-100, 100].
    - [Random]: the interface the program needs from the C library,
      [RandSource] ([srand], [rand], [RAND_MAX]) and its laws as type classes;
      [RND] in the state monad; the Visual C++ runtime's 32-bit linear
      congruential generator (the compiler the source names) as an instance,
      with its wrap-around written out, and a replayed list as a test double;
      [rng_after n g], the generator after [n] calls of [RND()].
    - [Particle]: the [particle] record, the [params] record of the globals,
      the zero-initialised [gbest], the two clamps of [ParticleMove] as the
      code writes them, the per-particle invariant [particle_wf] and the
      swarm-wide invariant [swarm_inv] (bounds, cached fitness, global best =
      maximum of the personal bests).
    - [Init]: [ParticleInit] over the world state (swarm, gbest, generator).
    - [Move]: [move_particle] (the per-particle update), [ParticleMove_body]
      (one iteration of the loop) and [ParticleMove].
    - [Sweep]: reference definitions of the two loops without in-place
      updates ([init_all], [move_all]: recursions down the list of
      particles threading the generator; [best_of]: the global best as a
      left fold of the strict comparison [better]) and the abstract
      specification [first_max] of a global best.
    - [Driver]: [AllocateParticle] (with [size_t] width and [malloc] failure),
      [main] as a function from the run's inputs to its outcome, and the
      end-to-end theorems.
    - [Draws]: the number of [rand()] calls of [ParticleInit], of
      [ParticleMove] and of a run ([run_draws]), for any generator.
    - [Display]: the [%.precf] and [%w.precf] conversions of [printf] on
      exact values ([format_f], [pad_left]), a reader for them
      ([parse_f]), and the two lines [main] prints ([best_line] for
      [ParticleDisplay], [known_line] for line 116).
    - [Binary64]: line 50, the literals of line 116 and the clamps of
      lines 165-170 over Rocq's primitive binary64 floats, and the exact
      value of a double ([Q_of_float]).
    - [Program]: [main] statement by statement ([ctl] is the statement of
      lines 108-117 that runs next, [step] runs it) over a heap, a stdpp
      [gmap] from locations to blocks: [malloc] takes a fresh location,
      [ParticleRelease] is [free], [ParticleInit]/[ParticleMove] read and
      write the block behind [p], NULL and short blocks are faults, and the
      printed lines are events.  [mstep] is the step relation, [run_machine]
      the run with fuel.

    ** How the model corresponds to the code
    - A [double] is modelled as an exact rational [Q]: [+ - *] are exact and
      the comparisons [< >] are [Qltb] (decidable, with [Decision]
      instances for [=], [==], [<=] and [<] so invariants are checked on
      concrete states by [bool_decide] and [vm_compute]).  IEEE rounding
      is not modelled there, so those theorems are about the algorithm as
      written over exact arithmetic; the constant [0.8] is the rational
      [4/5].  [Binary64] runs line 50 and the clamps on binary64 doubles
      and compares the printed output with the exact model's.
    - [rand()] is an integer in [0, RAND_MAX] (an [int]); [RND()] is the exact
      quotient.  The C library's generator is abstract (class [RandSource]);
      every theorem except the concrete runs holds for every generator that
      satisfies [RandSourceLaws].
    - The swarm array [p] is a [list particle] read with [!!] and written with
      [<[i:=_]>]; the loops run [i] from [0] to [particle_cnt - 1], which the
      allocation makes in range.  [gbest] is a value copy of a whole record,
      so later writes to the swarm never change it, as with [memcpy].
    - Statements are composed in the state monad [St world]; the order of
      the two [RND()] calls in one expression of [ParticleMove] is left to the
      compiler by C; the model draws [r1] (the [c1] term) first.

    ** What is proved (groups of theorems; C<n> are the claims)
    - [Driver] (C1-C3, C11-C14, C19, C20): after [ParticleInit] and any
      number of generations the state satisfies [swarm_inv] (C1), which
      includes that [gbest]'s fitness is the largest personal best and
      that [gbest] is one of them (the abstract specification [max_pbest]);
      [gbest] and every personal best only grow from one generation
      boundary to a later one (C2); in the configuration [main] sets,
      [main] prints a point of [-100, 100] and its true fitness, at most
      [0.01] above [fit(-57.469)] (C3; that bound holds for every point of
      [-100, 100], so C3 is about what is printed, not about how close the
      search comes to the optimum).  At the edges: a wrapped [size_t]
      product leads to a write past the block (C11), an empty swarm prints
      [(0, 0)], not a point of the objective (C12), the spec's one-particle
      scenario is refuted by a concrete run (C13), and with
      [w = c1 = c2 = 0] no particle moves after [ParticleInit] (C14); a
      failed [malloc] leads to a write through NULL (lemma
      [main_null_deref]).  Every point [fit] evaluates stays in the swarm
      until the next generation boundary, so the points evaluated up to
      generation [k] are the particles' points at the boundaries
      [0 .. k]: [gbest] dominates all of them (C19) and is one of them
      (C20), the abstract specification "best point evaluated so far"
      (refinement).
    - [Move] (C4, C5, C16-C18): one generation preserves [swarm_inv] (C4);
      a moved particle is clamped into the search space and the speed
      limit for any draws (C5); with [w = c1 = c2 = 0] it stays put.  The
      order of the two [RND()] calls of line 164 is left to the compiler:
      [ParticleMove_rl] is the right-to-left compilation; it preserves the
      invariant too (C16) but moves particles elsewhere (C17).  The
      functional specification of a generation: every particle is moved
      exactly once, towards the [gbest] position read at its start, with
      draws in [0, 1] (C18).
    - [Init] (C6): [ParticleInit] establishes [swarm_inv] for a nonempty
      swarm from any previous contents; initial velocities lie in
      [0, max_v] (lemma).
    - [Random] (C7): [RND()] is in [0, 1] for every generator that keeps
      the C contract [0 <= rand() <= RAND_MAX].
    - [Fitness] (C8-C10): [fit] is [|x^3 - 0.8x^2 - 10000x + 8000|] (C8),
      not the cubic of the comment on line 49 (C10); on [-100, 100] it
      never exceeds [fit(-57.469) + 0.01] (C9).
    - [Sweep] (C21-C24): on a swarm of [particle_cnt] particles the
      in-place loops compute their reference definitions (equivalence, C21
      for [ParticleMove], C22 for [ParticleInit]); the global best after a
      generation is the first of the candidates (old [gbest], then the
      moved particles in order) of largest fitness (C23), after
      [ParticleInit] the first of the fresh particles (C24): ties keep the
      earlier candidate.
    - [Program] (C25-C27, C29-C31): the statement-by-statement [main]
      stops within [max_itera + 7] statements with the outcome
      [Driver.main_with] gives (refinement, C25); every reachable state
      keeps the heap as it was but for the one block, between allocation
      and release, so [main] returns with the heap it started with
      (invariant by rule induction, C26); the only reachable faults are
      the NULL dereference and the write past the block (C27); the step
      relation is well founded (termination, C29); every reachable state
      is well formed, the loop counter at most [max_itera] and the block
      accessible from the return of [ParticleInit] to the [free] (C30);
      once [ParticleInit] has returned, [main] always reaches its return
      (liveness, C31).
    - [Display] (C28): a field printed by [%w.precf] reads back as the
      value rounded to [prec] decimals, within half a unit of the last
      decimal, so the line [ParticleDisplay] prints reads back as [gbest]
      (round trip, C28).
    - [Draws] (C15): a run of [k] generations calls [rand()] exactly
      [2 * particle_cnt * (k + 1)] times after [srand], for any generator.
    - [Binary64] (lemmas): the line printed at line 116 is the same text
      in binary64 as in the exact model; the double [-57.469] is not
      [-57.469], and a NaN passes both clamps.
    The invariants need only [params_wf] ([min_pos <= max_pos], [0 <= max_v]):
    the clamps bound a particle whatever the draws, so [Move]'s theorems hold
    for any generator, and only [ParticleInit] uses [RandSourceLaws].

    ** Plan for the next steps, in order
    (Done: the [w = c1 = c2 = 0] scenario over whole runs, C14; the
    second evaluation order of line 164, C16-C17; the "best point
    evaluated so far" specification at generation boundaries, C18-C20;
    reference definitions of both loops and the first-maximum
    specification of [gbest], C21-C24; [main] over the heap with
    [ParticleRelease], C25-C27, C29-C31; [printf]'s output, C28; the draw
    count of a run, C15; binary64 for lines 50, 116 and the clamps.)
    1. [Move]: a concrete generation in which re-reading [gbest.position]
       after each particle gives another swarm than the snapshot of line
       156.
    2. A statement about the search itself: with the default parameters
       the printed fitness is not only bounded by the optimum (C3) but
       grows over the generations on a concrete run.

    ** Bounds and fuel
    Every loop of the program is a counted [for] loop, modelled by
    structural recursion on its count ([particle_cnt], [max_itera]), so
    every definition is total and computes.  The only fuel is that of
    [Program.run_machine]; [max_itera + 7] is enough for every input (C25:
    one statement for the allocation, one for [ParticleInit], [max_itera]
    generations and the failing loop test, display, release, the last
    [printf], and the return), and the rank [Program.rank] shows no run
    is longer (C29).

    ** Not modelled
    Every line of [src/pso_linReg.c] that is code is modelled; what is
    left out is outside it or not code:
    - IEEE-754 rounding over whole runs: only line 50, the literals and
      the clamps are modelled in binary64 ([Binary64]); the theorems on
      runs are over exact rationals, so a long run's printed digits may
      differ in the last places from the model's, and proofs about
      rounded arithmetic over [max_itera] generations would need a
      floating-point library (error bounds) the environment does not have;
    - the C library, which the program only calls: [rand]/[srand] are an
      interface with two instances (its properties, such as the period
      of the Visual C++ generator, are facts of the runtime, not of the
      repository), [time(NULL)] is an input, [malloc]
      picks any location no live block uses, [printf]'s [%f] rounds the
      exact value of its argument (ties away from zero, as the Visual C++
      2008 runtime does);
    - the [#include]s and the prototypes of lines 86-90, and the
      commented-out per-particle listing of [ParticleDisplay] (lines
      200-202), which are not code that runs. *)

From Stdlib Require Import QArith Qabs Lqa.
From stdpp Require Import base list relations.

Open Scope Q_scope.

Declare Scope pso_scope.
Delimit Scope pso_scope with pso.

(** ** The state monad *)

(** A computation that reads and writes a state of type [W]. *)
Definition St (W A : Type) : Type := W -> A * W.

#[export] Instance St_ret {W} : MRet (St W) := fun A a w => (a, w).
#[export] Instance St_bind {W} : MBind (St W) :=
  fun A B k m w => let '(a, w') := m w in k a w'.

Definition get {W} : St W W := fun w => (w, w).
Definition put {W} (w : W) : St W unit := fun _ => (tt, w).
Definition modify {W} (f : W -> W) : St W unit := fun w => (tt, f w).

(** The final state of a computation run from [w]. *)
Definition exec {W A} (m : St W A) (w : W) : W := snd (m w).

Notation "m '@@' w" := (exec m w) (at level 20, no associativity) : pso_scope.
Open Scope pso_scope.

(** ** Counted loops: [for (i = i0; i < i0 + n; i++) body(i);] *)

Fixpoint for_from {W} (i n : nat) (body : nat -> St W unit) : St W unit :=
  match n with
  | O => mret tt
  | S n' => body i ;; for_from (S i) n' body
  end.

(** [for (i = 0; i < n; i++) body(i);] *)
Definition for_loop {W} (n : nat) (body : nat -> St W unit) : St W unit :=
  for_from 0 n body.

(** ** Comparisons of doubles *)

(** C's [x < y] on doubles, modelled on [Q]. *)
Definition Qltb (x y : Q) : bool := negb (Qle_bool y x).

(** A decision procedure transported along an equivalence. *)
Definition decide_by_iff {A B : Prop} (H : A <-> B) `{!Decision A} : Decision B :=
  match decide A with
  | left a => left (proj1 H a)
  | right na => right (fun b => na (proj2 H b))
  end.

(** ** Lemmas on the monad and on loops *)

Lemma exec_bind {W A B} (m : St W A) (k : A -> St W B) (w : W) :
  (m ≫= k) @@ w = k (fst (m w)) @@ (m @@ w).
Proof. unfold exec, mbind, St_bind. by destruct (m w). Qed.

Lemma exec_ret {W A} (a : A) (w : W) : mret (M := St W) a @@ w = w.
Proof. reflexivity. Qed.

Section Loops.
Context {W : Type} (body : nat -> St W unit).

Lemma for_from_0 (i : nat) w : for_from i 0 body @@ w = w.
Proof. reflexivity. Qed.

Lemma for_from_S (i n : nat) w :
  for_from i (S n) body @@ w = for_from (S i) n body @@ (body i @@ w).
Proof. unfold exec; cbn. unfold mbind, St_bind. by destruct (body i w). Qed.

(** Running [n + m] iterations is running [n], then the next [m]. *)
Lemma for_from_add (i n m : nat) w :
  for_from i (n + m) body @@ w = for_from (i + n) m body @@ (for_from i n body @@ w).
Proof.
  revert i w. induction n as [|n IH]; intros i w.
  - by rewrite Nat.add_0_r.
  - cbn [Nat.add]. rewrite !for_from_S, IH. do 2 f_equal. lia.
Qed.

(** The loop rule with an invariant indexed by the loop counter: if
    [I i] holds before the loop and iteration [j] takes [I j] to
    [I (S j)], then [I (i + n)] holds after it. *)
Lemma for_from_ind (I : nat -> W -> Prop) (i n : nat) w :
  (forall j w', (i <= j < i + n)%nat -> I j w' -> I (S j) (body j @@ w')) ->
  I i w -> I (i + n)%nat (for_from i n body @@ w).
Proof.
  revert i w. induction n as [|n IH]; intros i w Hb Hw.
  - by rewrite Nat.add_0_r.
  - rewrite for_from_S, Nat.add_succ_r, <- Nat.add_succ_l. apply IH.
    + intros j w' Hj. apply Hb. lia.
    + apply Hb; [lia | done].
Qed.

(** The loop rule: an invariant that every iteration of the range keeps
    holds after the loop. *)
Lemma for_from_inv (I : W -> Prop) (i n : nat) w :
  (forall j w', (i <= j < i + n)%nat -> I w' -> I (body j @@ w')) ->
  I w -> I (for_from i n body @@ w).
Proof. intros Hb Hw. apply (for_from_ind (fun _ => I)); auto. Qed.

(** The loop relation rule: a preorder every iteration follows relates the
    states before and after the loop. *)
Lemma for_from_rel (R : relation W) `{!PreOrder R} (i n : nat) w :
  (forall j w', (i <= j < i + n)%nat -> R w' (body j @@ w')) ->
  R w (for_from i n body @@ w).
Proof.
  intros Hb. apply (for_from_inv (R w)); [| done].
  intros j w' Hj Hw'. etrans; [exact Hw' | by apply Hb].
Qed.
End Loops.

(** ** Comparisons: reflection and decision *)

Lemma Qltb_spec (x y : Q) : reflect (x < y) (Qltb x y).
Proof.
  unfold Qltb. destruct (Qle_bool y x) eqn:E; constructor.
  - apply Qle_bool_iff in E. lra.
  - apply Qnot_le_lt. intros H. apply Qle_bool_iff in H. congruence.
Qed.

(** Case analysis on every comparison of the goal. *)
Ltac qcase :=
  repeat match goal with
         | |- context [Qltb ?x ?y] => destruct (Qltb_spec x y)
         end.

(** Decidable equality and order on [Q], so that [decide] and
    [bool_decide] compute on concrete states. *)
#[export] Instance Q_eq_dec : EqDecision Q.
Proof.
  intros [a b] [c d]. unfold Decision.
  destruct (decide (a = c)), (decide (b = d));
    [left; congruence | right; congruence ..].
Defined.

#[export] Instance Q_eqv_dec : RelDecision Qeq.
Proof.
  intros x y. unfold Decision. destruct (Qeq_bool x y) eqn:E.
  - left. by apply Qeq_bool_iff.
  - right. intros H. apply Qeq_bool_iff in H. congruence.
Defined.

#[export] Instance Q_le_dec : RelDecision Qle.
Proof.
  intros x y. unfold Decision. destruct (Qle_bool x y) eqn:E.
  - left. by apply Qle_bool_iff.
  - right. intros H. apply Qle_bool_iff in H. congruence.
Defined.

#[export] Instance Q_lt_dec : RelDecision Qlt.
Proof.
  intros x y. unfold Decision. destruct (Qltb x y) eqn:E.
  - left. by apply (reflect_iff _ _ (Qltb_spec x y)).
  - right. intros H. apply (reflect_iff _ _ (Qltb_spec x y)) in H. congruence.
Defined.

(** Prove a decidable proposition about concrete values by running its
    decision procedure. *)
Ltac by_compute := apply (bool_decide_unpack _); vm_compute; exact I.

(** ** Shared lemmas on [Q] *)

#[export] Instance Qle_preorder : PreOrder Qle.
Proof. split; [intros x; apply Qle_refl | intros x y z; apply Qle_trans]. Qed.

Lemma Qeq_of_eq (a b : Q) : a = b -> a == b.
Proof. intros ->. reflexivity. Qed.

(** [lra] reads only [==] on [Q]: turn the Leibniz equations between
    rationals of the context into [==] first. *)
Ltac qlra :=
  repeat match goal with
         | H : @eq Q _ _ |- _ => apply Qeq_of_eq in H
         end;
  lra.

Lemma Qsquare_nonneg (y : Q) : 0 <= y * y.
Proof. nra. Qed.

(** A convex combination [r * hi + (1 - r) * lo], written the way C scales
    a unit draw into an interval, stays in the interval. *)
Lemma Qscale_unit_range (r lo hi : Q) :
  0 <= r <= 1 -> lo <= hi -> lo <= r * (hi - lo) + lo <= hi.
Proof. intros [H0 H1] Hle. nra. Qed.

(** ** Shared lemmas on lists *)

(** Writing [p[length l1]] in [l1 ++ x :: l2] replaces [x]. *)
Lemma list_insert_middle {A} (l1 l2 : list A) (x y : A) :
  <[length l1 := y]> (l1 ++ x :: l2) = l1 ++ y :: l2.
Proof. rewrite <- (Nat.add_0_r (length l1)), insert_app_r. reflexivity. Qed.

(** Every element of [repeat x k] is [x]. *)
Lemma Forall_repeat_same {A} (P : A -> Prop) (x : A) (k : nat) : P x -> Forall P (repeat x k).
Proof. intros Hx. induction k; constructor; auto. Qed.

(** A cons in the middle is an append of a singleton. *)
Lemma app_cons_snoc {A} (l1 l2 : list A) (x : A) : l1 ++ x :: l2 = (l1 ++ [x]) ++ l2.
Proof. by rewrite <- app_assoc. Qed.

(** ** Reachability *)

(** Rule induction along a chain of steps: a property every step keeps
    holds at the end of the chain. *)
Lemma rtc_preserved {A} (R : relation A) (I : A -> Prop) (x y : A) :
  (forall a b, R a b -> I a -> I b) -> rtc R x y -> I x -> I y.
Proof. intros HR Hr. induction Hr; eauto. Qed.

Create HintDb pso.
#[export] Hint Resolve Qle_refl Qsquare_nonneg : pso.
