(* ===== verification/Fitness.v ===== *)
(** * The objective function [fit] of [src/pso_linReg.c] (lines 46-51)

    [fit] is written in Horner form, [fabs(8000 + x*(-10000 + x*(-0.8 + x)))].
    This file proves that it is the absolute value of the cubic
    [x^3 - 0.8x^2 - 10000x + 8000] (and not of the cubic the comment on line 49
    names), that it respects [Qeq], and that on the search space [-100, 100]
    its maximum lies within [0.01] of the value at [-57.469] that [main]
    prints as the known optimum. *)

From Stdlib Require Import QArith Qabs Lqa Morphisms.
From stdpp Require Import base.
From S2P Require Import Prelude.

Open Scope Q_scope.

(** [double fit(double x)], with the literal [0.8] as [4/5]. *)
Definition fit (x : Q) : Q :=
  Qabs (8000 + x * (-10000 + x * (- (4 # 5) + x))).
Arguments fit : simpl never.

(** The polynomial the code evaluates, expanded. *)
Definition cubic (x : Q) : Q := x * x * x - (4 # 5) * x * x - 10000 * x + 8000.

(** The polynomial the comment on line 49 names: [x**3 - 0.8x**2 - 1000x + 8000]. *)
Definition comment_cubic (x : Q) : Q := x * x * x - (4 # 5) * x * x - 1000 * x + 8000.

(** The argument [main] prints as the known optimum, [-57.469]. *)
Definition known_x : Q := - (57469 # 1000).

#[export] Instance fit_proper : Proper (Qeq ==> Qeq) fit.
Proof. intros x y E. unfold fit. rewrite E. reflexivity. Qed.

Lemma fit_nonneg (x : Q) : 0 <= fit x.
Proof. apply Qabs_nonneg. Qed.

Lemma fit_horner (x : Q) : fit x == Qabs (cubic x).
Proof. unfold fit, cubic. apply Qabs_wd. ring. Qed.

(** On [-100, 100] the cubic stays within [+-390245.8].  Each side is a sum
    of a square times a nonnegative factor, a scaled square, and a positive
    constant: the hints below are those squares, centred at the local maximum
    [-57.4694] and the local minimum [58.0028] of the cubic. *)
Lemma cubic_upper (x : Q) : -100 <= x <= 100 -> cubic x <= 3902458 # 10.
Proof.
  intros [Hl Hu]. unfold cubic.
  assert (0 <= (x + (574694 # 10000)) * (x + (574694 # 10000)) * (100 - x)).
  { apply Qmult_le_0_compat; [apply Qsquare_nonneg | lra]. }
  pose proof (Qsquare_nonneg (x + (922883641 # 16060000))). lra.
Qed.

Lemma cubic_lower (x : Q) : -100 <= x <= 100 -> - (3902458 # 10) <= cubic x.
Proof.
  intros [Hl Hu]. unfold cubic.
  assert (0 <= (x - (580028 # 10000)) * (x - (580028 # 10000)) * (x + 100)).
  { apply Qmult_le_0_compat; [apply Qsquare_nonneg | lra]. }
  pose proof (Qsquare_nonneg (x - (11023530049 # 190070000))). lra.
Qed.

Lemma fit_upper (x : Q) : -100 <= x <= 100 -> fit x <= 3902458 # 10.
Proof.
  intros Hx. rewrite fit_horner. apply Qabs_Qle_condition.
  split; [apply cubic_lower | apply cubic_upper]; exact Hx.
Qed.

Lemma fit_known_x : 39024579 # 100 <= fit known_x.
Proof. vm_compute. discriminate. Qed.

(** ** Properties *)

(** C8: [fit], evaluated in Horner form as the code
    writes it, is the absolute value of the cubic
    [x^3 - 0.8x^2 - 10000x + 8000] at every point. *)
Theorem fit_is_abs_cubic (x : Q) :
  fit x == Qabs (x * x * x - (4 # 5) * x * x - 10000 * x + 8000).
Proof. exact (fit_horner x). Qed.

(** C10: the comment on line 49 names the cubic [x^3 - 0.8x^2 - 1000x + 8000];
    the code computes a different function: at [x = 1] the two disagree. *)
Theorem fit_not_comment_cubic : exists x, ~ fit x == Qabs (comment_cubic x).
Proof. exists 1. vm_compute. discriminate. Qed.

(** C9: on the search space [-100, 100] no point has a fitness more than [0.01]
    above that of [-57.469], the "known" optimum [main] prints: the value is
    the maximum of the objective up to [0.01]. *)
Theorem fit_known_x_near_max (x : Q) :
  -100 <= x <= 100 -> fit x <= fit known_x + (1 # 100).
Proof. intros Hx. pose proof (fit_upper x Hx). pose proof fit_known_x. lra. Qed.

(** The spec's reference value: [fit(-57.469)] is [390245.791738] up to
    [10^-6]. *)
Theorem fit_known_value : Qabs (fit known_x - (390245791738 # 1000000)) <= 1 # 1000000.
Proof. vm_compute. discriminate. Qed.

Lemma fit_known_x_near_max_witness :
  -100 <= 0 <= 100 /\ fit 0 <= fit known_x + (1 # 100).
Proof.
  split; [split; vm_compute; discriminate |].
  apply (fit_known_x_near_max 0). split; vm_compute; discriminate.
Defined.
