(* ===== verification/Random.v ===== *)
(** * The random source: [RND()] of [src/pso_linReg.c] (line 85)

    The program draws every random number through the macro
    [#define RND() ((double)rand()/RAND_MAX)] from the C library's
    process-wide generator, seeded once by [srand((unsigned)time(NULL))] in
    [ParticleInit].  The generator belongs to the C library, not to the
    repository: it is an interface here, the class [RandSource] ([srand],
    [rand], [RAND_MAX]), with the laws the program relies on in
    [RandSourceLaws].  Two instances: the Visual C++ runtime's 32-bit linear
    congruential generator (the header of the source names Visual C++ 2008),
    and [Replay], a scripted sequence of draws for concrete runs. *)

From Stdlib Require Import QArith ZArith Lqa Lia.
From stdpp Require Import base list.
From S2P Require Import Prelude.

Open Scope Q_scope.

(** What the program uses of [<stdlib.h>]: [srand] replaces the generator's
    state by one derived from the seed, [rand] returns the next draw and the
    next state. *)
Class RandSource (G : Type) := {
  RAND_MAX : Z;
  srand : Z -> G -> G;
  rand : G -> Z * G
}.

(** The C standard's contract: [RAND_MAX] is positive and [rand()] returns
    an integer in [0, RAND_MAX]. *)
Class RandSourceLaws (G : Type) `{!RandSource G} := {
  RAND_MAX_pos : (0 < RAND_MAX)%Z;
  rand_range : forall g, (0 <= fst (rand g) <= RAND_MAX)%Z
}.

Section RND.
Context {G : Type} `{!RandSource G}.

(** [RND()]: [(double)rand()/RAND_MAX]. *)
Definition RND : St G Q :=
  k ← (rand : St G Z);
  mret (inject_Z k / inject_Z RAND_MAX).

(** The generator after [n] calls of [RND()], each reading the state the
    previous one left. *)
Fixpoint rng_after (n : nat) (g : G) : G :=
  match n with
  | O => g
  | S n' => rng_after n' (snd (RND g))
  end.

End RND.

(** ** The Visual C++ runtime's generator *)
Module MSVC.
(** [_holdrand], an [unsigned long] of 32 bits. *)
Record state := mkState { holdrand : Z }.

Definition modulus : Z := 2 ^ 32.

(** [srand(seed)]: [_holdrand = (unsigned long)seed]. *)
Definition srand (seed : Z) (_ : state) : state := mkState (seed mod modulus).

(** [rand()]: [((_holdrand = _holdrand * 214013L + 2531011L) >> 16) & 0x7fff],
    with the 32-bit wrap-around of the update written out. *)
Definition rand (s : state) : Z * state :=
  let h := ((holdrand s * 214013 + 2531011) mod modulus)%Z in
  (Z.land (Z.shiftr h 16) 32767, mkState h).

#[global] Instance source : RandSource state :=
  Build_RandSource state 32767 srand rand.

Lemma msvc_rand_range (s : state) : (0 <= fst (rand s) <= 32767)%Z.
Proof.
  unfold rand; cbn [fst].
  change 32767%Z with (Z.ones 15). rewrite Z.land_ones by lia.
  pose proof (Z.mod_pos_bound (Z.shiftr ((holdrand s * 214013 + 2531011) mod modulus) 16)
                (2 ^ 15) ltac:(lia)).
  change (Z.ones 15) with (2 ^ 15 - 1)%Z. lia.
Qed.

#[global] Instance laws : RandSourceLaws state.
Proof. split; [cbn; lia | exact msvc_rand_range]. Qed.
End MSVC.

(** ** A scripted source for concrete runs *)
Module Replay.
(** The draws still to come; an exhausted script draws [0].  A scripted
    value is reduced into [0, RAND_MAX] as a [rand()] result must be. *)
Record state := mkState { draws : list Z }.

Definition MAX : Z := 32767.

(** Seeding keeps the script, so a run replays it whatever the clock. *)
Definition srand (_ : Z) (s : state) : state := s.

Definition rand (s : state) : Z * state :=
  match draws s with
  | [] => (0%Z, s)
  | k :: ks => ((k mod (MAX + 1))%Z, mkState ks)
  end.

#[global] Instance source : RandSource state :=
  Build_RandSource state MAX srand rand.

Lemma replay_rand_range (s : state) : (0 <= fst (rand s) <= MAX)%Z.
Proof.
  unfold rand, MAX. destruct (draws s) as [|k ks]; cbn [fst]; [lia |].
  pose proof (Z.mod_pos_bound k (32767 + 1) ltac:(lia)). lia.
Qed.

#[global] Instance laws : RandSourceLaws state.
Proof. split; [cbn; unfold MAX; lia | exact replay_rand_range]. Qed.
End Replay.

(** ** Facts about [RND()] *)

Section RNDFacts.
Context {G : Type} `{!RandSource G}.

Lemma RND_unfold (g : G) :
  RND g = (inject_Z (fst (rand g)) / inject_Z RAND_MAX, snd (rand g)).
Proof. unfold RND, mbind, St_bind. by destruct (rand g). Qed.

Context `{!RandSourceLaws G}.

(** Every draw of [RND()] lies in [0, 1]. *)
Lemma RND_range (g : G) : 0 <= fst (RND g) <= 1.
Proof.
  rewrite RND_unfold; cbn [fst].
  destruct (rand_range g) as [Hlo Hhi].
  pose proof RAND_MAX_pos as Hpos.
  rewrite Zle_Qle in Hlo, Hhi. rewrite Zlt_Qlt in Hpos.
  split.
  - apply Qle_shift_div_l; [exact Hpos |]. rewrite Qmult_0_l. exact Hlo.
  - apply Qle_shift_div_r; [exact Hpos |]. rewrite Qmult_1_l. exact Hhi.
Qed.
End RNDFacts.

Section RngAfter.
Context {G : Type} `{!RandSource G}.

Lemma rng_after_add (n m : nat) (g : G) :
  rng_after (n + m) g = rng_after m (rng_after n g).
Proof. revert g. induction n as [|n IH]; intros g; [done | apply IH]. Qed.

End RngAfter.

#[export] Hint Resolve RND_range : pso.

(** C7: for any generator that keeps the C standard's contract, a draw of
    [RND()] is in [0, 1], both ends included. *)
Theorem RND_in_unit_interval {G : Type} `{!RandSource G, !RandSourceLaws G} (g : G) :
  0 <= fst (RND g) <= 1.
Proof. apply RND_range. Qed.

(** ** Witnesses *)

Lemma RND_in_unit_interval_witness : 0 <= fst (RND (Replay.mkState [12345%Z])) <= 1.
Proof. apply RND_in_unit_interval. Defined.
