(* ===== verification/Particle.v ===== *)
(** * Particles, parameters and the program's state

    The [particle] record is [struct tag_particle] (lines 61-67); [params] is
    the group of globals [main] sets once (lines 75-78); [world] is the
    mutable state of a run: the swarm array [p], the global best [gbest]
    (line 79, zero-initialised as a C global) and the C library's generator.
    The two clamps of [ParticleMove] (lines 165-166 and 169-170) are
    separate definitions here because both [Move] and the invariants use
    them.  The invariants: [particle_wf] for one particle, [swarm_inv] for
    the whole state, and the preorder [progress] that relates a state to any
    later one. *)

From Stdlib Require Import QArith Qabs Qminmax Lqa.
From stdpp Require Import base list.
From S2P Require Import Prelude Fitness Random.

Open Scope Q_scope.

(** [typedef struct tag_particle {...} particle;] *)
Record particle := mkParticle {
  position : Q;
  velocity : Q;
  fitness : Q;
  pbest_pos : Q;
  pbest_fit : Q
}.

(** [double w, c1, c2; double max_v; double max_pos, min_pos;
    unsigned particle_cnt;] *)
Record params := mkParams {
  w : Q;
  c1 : Q;
  c2 : Q;
  max_v : Q;
  max_pos : Q;
  min_pos : Q;
  particle_cnt : nat
}.

(** [particle gbest;]: a C global, so all its fields start at [0.0]. *)
Definition zero_particle : particle := mkParticle 0 0 0 0 0.

(** The state a run mutates: the swarm [p], the global [gbest] and the
    process-wide state of the generator. *)
Record world (G : Type) := mkWorld {
  swarm : list particle;
  gbest : particle;
  rng : G
}.
Arguments mkWorld {G}.
Arguments swarm {G}.
Arguments gbest {G}.
Arguments rng {G}.

Section World.
Context {G : Type}.

Definition set_swarm (s : list particle) (st : world G) : world G :=
  mkWorld s (gbest st) (rng st).
Definition set_gbest (b : particle) (st : world G) : world G :=
  mkWorld (swarm st) b (rng st).
Definition set_rng (g : G) (st : world G) : world G :=
  mkWorld (swarm st) (gbest st) g.

(** A call of [RND()] inside the program: it advances the process-wide
    generator. *)
Definition rnd `{!RandSource G} : St (world G) Q :=
  fun st => let '(r, g) := RND (rng st) in (r, set_rng g st).

End World.

(** ** The clamps of [ParticleMove] *)

(** [if(v<-max_v) v=-max_v; else if(v>max_v) v=max_v;] *)
Definition clamp_velocity (P : params) (v : Q) : Q :=
  if Qltb v (- max_v P) then - max_v P
  else if Qltb (max_v P) v then max_v P
  else v.
Arguments clamp_velocity : simpl never.

(** [if(pos>max_pos) pos=max_pos; else if(pos<min_pos) pos=min_pos;] *)
Definition clamp_position (P : params) (pos : Q) : Q :=
  if Qltb (max_pos P) pos then max_pos P
  else if Qltb pos (min_pos P) then min_pos P
  else pos.
Arguments clamp_position : simpl never.

(** ** Invariants *)

(** The parameters the invariants need: a nonempty search interval and a
    nonnegative speed limit ([main] sets [-100, 100] and [200]). *)
Definition params_wf (P : params) : Prop := min_pos P <= max_pos P /\ 0 <= max_v P.

Definition in_bounds (P : params) (x : Q) : Prop := min_pos P <= x <= max_pos P.

(** A particle is in the search space, within the speed limit, its two
    cached fitness values are those of the positions recorded with them,
    and its personal best is at least its current fitness. *)
Record particle_wf (P : params) (p : particle) : Prop := {
  wf_position : in_bounds P (position p);
  wf_velocity : - max_v P <= velocity p <= max_v P;
  wf_fitness : fitness p = fit (position p);
  wf_pbest_fit : pbest_fit p = fit (pbest_pos p);
  wf_pbest_pos : in_bounds P (pbest_pos p);
  wf_fitness_le : fitness p <= pbest_fit p
}.

Section Invariants.
Context {G : Type} (P : params).

(** The state invariant of a run: [particle_cnt] particles, each well
    formed; [gbest] bounds every personal best and is one of them. *)
Record swarm_inv (st : world G) : Prop := {
  inv_length : length (swarm st) = particle_cnt P;
  inv_particles : forall i p, swarm st !! i = Some p -> particle_wf P p;
  inv_gbest_upper : forall i p, swarm st !! i = Some p -> pbest_fit p <= fitness (gbest st);
  inv_gbest_attained : exists i p, swarm st !! i = Some p /\
    pbest_pos p = position (gbest st) /\ pbest_fit p = fitness (gbest st)
}.

(** How a state relates to a later one: the swarm keeps its size, no
    personal best and not the global best decreases. *)
Record progress (st st' : world G) : Prop := {
  prog_length : length (swarm st') = length (swarm st);
  prog_pbest : forall i p p', swarm st !! i = Some p -> swarm st' !! i = Some p' ->
    pbest_fit p <= pbest_fit p';
  prog_gbest : fitness (gbest st) <= fitness (gbest st')
}.
End Invariants.

Arguments swarm_inv {G}.
Arguments progress {G}.

(** ** The abstract specification of the global best *)

(** What [gbest] stands for: the largest personal best of the swarm (the
    best point any particle has seen), here as a fold over the list. *)
Definition max_pbest (s : list particle) : Q :=
  match s with
  | [] => 0
  | p :: s' => fold_right (fun q m => Qmax (pbest_fit q) m) (pbest_fit p) s'
  end.

(** ** Lemmas *)

Section WorldFacts.
Context {G : Type}.

Lemma rnd_unfold `{!RandSource G} (st : world G) :
  rnd st = (fst (RND (rng st)), set_rng (snd (RND (rng st))) st).
Proof. unfold rnd. by destruct (RND (rng st)). Qed.

Lemma rnd_range `{!RandSource G, !RandSourceLaws G} (st : world G) :
  0 <= fst (rnd st) <= 1.
Proof. rewrite rnd_unfold. apply RND_range. Qed.
End WorldFacts.

Lemma clamp_velocity_range (P : params) (v : Q) :
  0 <= max_v P -> - max_v P <= clamp_velocity P v <= max_v P.
Proof. intros H. unfold clamp_velocity. qcase; lra. Qed.

Lemma clamp_position_range (P : params) (pos : Q) :
  min_pos P <= max_pos P -> in_bounds P (clamp_position P pos).
Proof. intros H. unfold in_bounds, clamp_position. qcase; lra. Qed.

(** A value already in its interval passes through a clamp unchanged. *)
Lemma clamp_velocity_id (P : params) (v : Q) :
  - max_v P <= v <= max_v P -> clamp_velocity P v = v.
Proof. intros H. unfold clamp_velocity. qcase; first [reflexivity | lra]. Qed.

Lemma clamp_position_id (P : params) (pos : Q) :
  in_bounds P pos -> clamp_position P pos = pos.
Proof. unfold in_bounds. intros H. unfold clamp_position. qcase; first [reflexivity | lra]. Qed.

#[export] Instance progress_preorder {G : Type} : PreOrder (@progress G).
Proof.
  split.
  - intros st. split; [done | | lra]. intros i p p' H H'. rewrite H in H'. injection H' as ->. lra.
  - intros st1 st2 st3 [L12 P12 G12] [L23 P23 G23]. split.
    + congruence.
    + intros i p p'' H1 H3.
      destruct (lookup_lt_is_Some_2 (swarm st2) i) as [p' H2].
      { rewrite L12. by apply lookup_lt_Some in H1. }
      specialize (P12 i p p' H1 H2). specialize (P23 i p' p'' H2 H3). lra.
    + lra.
Qed.

Section InvFacts.
Context {G : Type} (P : params).

(** The global best is a point of the search space and its fitness is
    the objective there. *)
Lemma swarm_inv_gbest (st : world G) :
  swarm_inv P st ->
  fitness (gbest st) = fit (position (gbest st)) /\ in_bounds P (position (gbest st)).
Proof.
  intros [_ Hwf _ (i & p & Hp & Hpos & Hfit)].
  destruct (Hwf i p Hp) as [_ _ _ Hpf Hpp _].
  rewrite <- Hpos, <- Hfit. done.
Qed.
End InvFacts.

(** ** Decidability: the invariants are checked by computation on concrete
    states. *)

#[export] Instance params_wf_dec (P : params) : Decision (params_wf P).
Proof. unfold params_wf. apply _. Defined.

#[export] Instance in_bounds_dec (P : params) (x : Q) : Decision (in_bounds P x).
Proof. unfold in_bounds. apply _. Defined.

Lemma particle_wf_alt (P : params) (p : particle) :
  particle_wf P p <->
  in_bounds P (position p) /\ (- max_v P <= velocity p <= max_v P) /\
  fitness p = fit (position p) /\ pbest_fit p = fit (pbest_pos p) /\ in_bounds P (pbest_pos p) /\
  fitness p <= pbest_fit p.
Proof. split; [intros []; done | intros (?&?&?&?&?&?); by constructor]. Qed.

#[export] Instance particle_wf_dec (P : params) (p : particle) : Decision (particle_wf P p).
Proof. exact (decide_by_iff (iff_sym (particle_wf_alt P p))). Defined.

Lemma swarm_inv_alt {G : Type} (P : params) (st : world G) :
  swarm_inv P st <->
  length (swarm st) = particle_cnt P /\ Forall (particle_wf P) (swarm st) /\
  Forall (fun p => pbest_fit p <= fitness (gbest st)) (swarm st) /\
  Exists (fun p => pbest_pos p = position (gbest st) /\ pbest_fit p = fitness (gbest st))
    (swarm st).
Proof.
  rewrite !Forall_lookup, Exists_exists. split.
  - intros [Hl Hwf Hub (i & p & Hp & Hpos & Hfit)]. split_and!; [done | done | done |].
    exists p. split; [by eapply list_elem_of_lookup_2 | done].
  - intros (Hl & Hwf & Hub & p & Hin & Hpos & Hfit). split; [done | done | done |].
    apply list_elem_of_lookup in Hin as [i Hi]. by exists i, p.
Qed.

#[export] Instance swarm_inv_dec {G : Type} (P : params) (st : world G) :
  Decision (swarm_inv P st).
Proof. exact (decide_by_iff (iff_sym (swarm_inv_alt P st))). Defined.

Lemma fold_max_upper (s : list particle) (a : Q) :
  a <= fold_right (fun q m => Qmax (pbest_fit q) m) a s /\
  forall q, q ∈ s -> pbest_fit q <= fold_right (fun q m => Qmax (pbest_fit q) m) a s.
Proof.
  induction s as [|q0 s [IHa IHq]]; cbn.
  - split; [lra | intros q Hq; by apply not_elem_of_nil in Hq].
  - split.
    + etrans; [exact IHa | apply Q.le_max_r].
    + intros q Hq. apply elem_of_cons in Hq as [-> | Hq]; [apply Q.le_max_l |].
      etrans; [exact (IHq q Hq) | apply Q.le_max_r].
Qed.

Lemma fold_max_attained (s : list particle) (a : Q) :
  fold_right (fun q m => Qmax (pbest_fit q) m) a s == a \/
  exists q, q ∈ s /\ fold_right (fun q m => Qmax (pbest_fit q) m) a s == pbest_fit q.
Proof.
  induction s as [|q0 s IH]; cbn; [left; reflexivity |].
  destruct (Q.max_spec (pbest_fit q0) (fold_right (fun q m => Qmax (pbest_fit q) m) a s))
    as [[_ E] | [_ E]].
  - destruct IH as [IH | (q & Hq & IH)]; [left; by rewrite E |].
    right. exists q. split; [by apply elem_of_cons; right | by rewrite E].
  - right. exists q0. split; [apply elem_of_cons; by left | by rewrite E].
Qed.

(** A bound of every personal best that is itself a personal best is the
    maximum. *)
Lemma max_pbest_unique (s : list particle) (m : Q) :
  (forall q, q ∈ s -> pbest_fit q <= m) -> (exists q, q ∈ s /\ pbest_fit q == m) ->
  max_pbest s == m.
Proof.
  intros Hub (q & Hq & Hm). destruct s as [|p s]; [by apply not_elem_of_nil in Hq |].
  cbn. destruct (fold_max_upper s (pbest_fit p)) as [Ha Hs].
  apply Qle_antisym.
  - destruct (fold_max_attained s (pbest_fit p)) as [-> | (q' & Hq' & ->)].
    + apply Hub. apply elem_of_cons. by left.
    + apply Hub. apply elem_of_cons. by right.
  - rewrite <- Hm. apply elem_of_cons in Hq as [-> | Hq]; [exact Ha | exact (Hs q Hq)].
Qed.

(** [swarm_inv] refines the specification: the global best's fitness is the
    largest personal best. *)
Lemma swarm_inv_gbest_max {G : Type} (P : params) (st : world G) :
  swarm_inv P st -> fitness (gbest st) == max_pbest (swarm st).
Proof.
  intros [_ _ Hub (i & p & Hp & _ & Hfit)]. symmetry. apply max_pbest_unique.
  - intros q Hq. apply list_elem_of_lookup in Hq as [j Hj]. exact (Hub j q Hj).
  - exists p. split; [by eapply list_elem_of_lookup_2 | by rewrite Hfit].
Qed.

#[export] Hint Resolve clamp_velocity_range clamp_position_range : pso.
