(* ===== verification/Move.v ===== *)
(** * One generation: [ParticleMove] of [src/pso_linReg.c] (lines 151-186)

    [ParticleMove] reads [gbest.position] once, then sweeps the swarm in index
    order.  The sweep's body is split as the code's statements group:
    [move_particle] is the update of one particle (lines 160-180: velocity,
    its clamp, position, its clamp, fitness, personal best), [raise_gbest]
    the live update of the global best (lines 183-184), and
    [ParticleMove_body] one iteration of the loop with its two [RND()]
    draws.  The theorems: a move keeps a particle well formed for any draws
    and never lowers its personal best; one iteration, and so the whole
    generation, preserves [swarm_inv] and moves the state forward in
    [progress]; with [w = c1 = c2 = 0] a particle stays where it is. *)

From Stdlib Require Import QArith Qabs Lqa.
From stdpp Require Import base list.
From S2P Require Import Prelude Fitness Random Particle.

Open Scope Q_scope.

(** Lines 160-180, for the particle [p] read from [p[i]], the snapshot
    [gpos] of the global best position and the two draws [r1], [r2]. *)
Definition move_particle (P : params) (gpos r1 r2 : Q) (p : particle) : particle :=
  let v := velocity p in
  let pos := position p in
  let ppos := pbest_pos p in
  let v := clamp_velocity P (w P * v + c1 P * r1 * (ppos - pos) + c2 P * r2 * (gpos - pos)) in
  let pos := clamp_position P (pos + v) in
  let fitness := fit pos in
  if Qltb (pbest_fit p) fitness
  then mkParticle pos v fitness pos fitness
  else mkParticle pos v fitness (pbest_pos p) (pbest_fit p).

Section Sweep.
Context {G : Type} `{!RandSource G}.

(** Lines 183-184: [if(p[i].fitness > gbest.fitness) memcpy(&gbest, &p[i], ...)]. *)
Definition raise_gbest (p : particle) (st : world G) : world G :=
  if Qltb (fitness (gbest st)) (fitness p) then set_gbest p st else st.

(** Lines 160-184: iteration [i] of the sweep, [gpos] the snapshot. *)
Definition ParticleMove_body (P : params) (gpos : Q) (i : nat) : St (world G) unit :=
  st ← get;
  match swarm st !! i with
  | None => mret tt
  | Some p =>
      r1 ← rnd;
      r2 ← rnd;
      let p' := move_particle P gpos r1 r2 p in
      modify (fun st => raise_gbest p' (set_swarm (<[i:=p']> (swarm st)) st))
  end.

(** C leaves the order of the two [RND()] calls of line 164 to the
    compiler.  [ParticleMove_body_rl] is the iteration a compiler that
    evaluates the operands right to left produces: the draw of the [c2]
    term comes first. *)
Definition ParticleMove_body_rl (P : params) (gpos : Q) (i : nat) : St (world G) unit :=
  st ← get;
  match swarm st !! i with
  | None => mret tt
  | Some p =>
      r2 ← rnd;
      r1 ← rnd;
      let p' := move_particle P gpos r1 r2 p in
      modify (fun st => raise_gbest p' (set_swarm (<[i:=p']> (swarm st)) st))
  end.

(** [void ParticleMove(particle *p)]. *)
Definition ParticleMove (P : params) : St (world G) unit :=
  st ← get;
  let gpos := position (gbest st) in
  for_loop (particle_cnt P) (ParticleMove_body P gpos).

(** [ParticleMove] compiled with the right-to-left order. *)
Definition ParticleMove_rl (P : params) : St (world G) unit :=
  st ← get;
  let gpos := position (gbest st) in
  for_loop (particle_cnt P) (ParticleMove_body_rl P gpos).
End Sweep.

(** ** Relations and states the theorems use *)

(** How the personal best moves: raised to the new point when its fitness is
    strictly higher, kept otherwise. *)
Definition pbest_step (p p' : particle) : Prop :=
  (pbest_fit p < fitness p' /\ pbest_pos p' = position p' /\ pbest_fit p' = fitness p') \/
  (fitness p' <= pbest_fit p /\ pbest_pos p' = pbest_pos p /\ pbest_fit p' = pbest_fit p).

(** After the first [j] iterations of the sweep, particles [0 .. j-1] have
    been moved once towards [gpos] with draws in [0, 1], the others are
    untouched. *)
Definition sweep_inv {G : Type} (P : params) (gpos : Q) (st : world G) (j : nat) (st' : world G) : Prop :=
  length (swarm st') = length (swarm st) /\
  forall k p, swarm st !! k = Some p ->
    ((k < j)%nat -> exists r1 r2, 0 <= r1 <= 1 /\ 0 <= r2 <= 1 /\
        swarm st' !! k = Some (move_particle P gpos r1 r2 p)) /\
    ((j <= k)%nat -> swarm st' !! k = Some p).

(** Two states of the same swarm whose particles sit at the same positions. *)
Definition positions_kept {G : Type} (st st' : world G) : Prop :=
  length (swarm st') = length (swarm st) /\
  forall i p p', swarm st !! i = Some p -> swarm st' !! i = Some p' -> position p' == position p.

(** ** A concrete state *)

(** Two particles on the default search space; the one at [-50] is the
    global best. *)
Definition demo_swarm : list particle :=
  [mkParticle 10 5 (fit 10) 10 (fit 10); mkParticle (-50) 0 (fit (-50)) (-50) (fit (-50))].

Definition demo_world : world Replay.state :=
  mkWorld demo_swarm (mkParticle (-50) 0 (fit (-50)) (-50) (fit (-50)))
    (Replay.mkState [16000; 300; 32767; 12]%Z).

Definition demo_params : params := mkParams 1 2 2 200 100 (-100) 2.

(** ** The update of one particle *)

Lemma move_particle_pbest_step (P : params) (gpos r1 r2 : Q) (p : particle) :
  pbest_step p (move_particle P gpos r1 r2 p).
Proof.
  unfold pbest_step, move_particle. cbn zeta.
  qcase; cbn; [left | right]; split_and!; try reflexivity; lra.
Qed.

Lemma pbest_step_mono (p p' : particle) :
  pbest_step p p' -> pbest_fit p <= pbest_fit p' /\ fitness p' <= pbest_fit p'.
Proof. intros [(? & ? & ->) | (? & ? & ->)]; lra. Qed.

Lemma move_particle_wf (P : params) (gpos r1 r2 : Q) (p : particle) :
  params_wf P -> particle_wf P p -> particle_wf P (move_particle P gpos r1 r2 p).
Proof.
  intros [Hpos Hv] [_ _ _ Hpf Hpp _]. unfold move_particle. cbn zeta.
  qcase; constructor; cbn; auto with pso; lra.
Qed.

(** ** One iteration of the sweep *)

Section Body.
Context {G : Type} `{!RandSource G}.

Lemma raise_gbest_cases (p : particle) (st : world G) :
  (fitness (gbest st) < fitness p /\ raise_gbest p st = set_gbest p st) \/
  (fitness p <= fitness (gbest st) /\ raise_gbest p st = st).
Proof. unfold raise_gbest. qcase; [left | right]; split; auto; lra. Qed.

Lemma swarm_raise_gbest (p : particle) (st : world G) :
  swarm (raise_gbest p st) = swarm st.
Proof. unfold raise_gbest. by destruct (Qltb _ _). Qed.

(** The iteration in closed form: nothing when [i] is out of range,
    otherwise two draws, the write of [p[i]] and the live global-best
    update. *)
Lemma ParticleMove_body_exec (P : params) (gpos : Q) (i : nat) (st : world G) :
  ParticleMove_body P gpos i @@ st =
  match swarm st !! i with
  | None => st
  | Some p =>
      let r1 := fst (RND (rng st)) in
      let g1 := snd (RND (rng st)) in
      let p' := move_particle P gpos r1 (fst (RND g1)) p in
      raise_gbest p' (mkWorld (<[i:=p']> (swarm st)) (gbest st) (snd (RND g1)))
  end.
Proof.
  unfold ParticleMove_body, exec, mbind, St_bind, get, modify.
  destruct (swarm st !! i) as [p|]; [| reflexivity].
  rewrite rnd_unfold. cbn. rewrite rnd_unfold. reflexivity.
Qed.

Lemma ParticleMove_body_rl_exec (P : params) (gpos : Q) (i : nat) (st : world G) :
  ParticleMove_body_rl P gpos i @@ st =
  match swarm st !! i with
  | None => st
  | Some p =>
      let r2 := fst (RND (rng st)) in
      let g1 := snd (RND (rng st)) in
      let p' := move_particle P gpos (fst (RND g1)) r2 p in
      raise_gbest p' (mkWorld (<[i:=p']> (swarm st)) (gbest st) (snd (RND g1)))
  end.
Proof.
  unfold ParticleMove_body_rl, exec, mbind, St_bind, get, modify.
  destruct (swarm st !! i) as [p|]; [| reflexivity].
  rewrite rnd_unfold. cbn. rewrite rnd_unfold. reflexivity.
Qed.

(** Replacing particle [i] by a well-formed successor and raising the
    global best keeps the state invariant. *)
Lemma swarm_inv_replace (P : params) (st : world G) (i : nat) (p p' : particle) (g : G) :
  swarm_inv P st -> swarm st !! i = Some p -> particle_wf P p' -> pbest_step p p' ->
  swarm_inv P (raise_gbest p' (mkWorld (<[i:=p']> (swarm st)) (gbest st) g)).
Proof.
  intros [Hl Hwf Hub (k & q & Hq & Hqpos & Hqfit)] Hp Hwf' Hstep.
  pose proof (Hub i p Hp) as Hpi. pose proof (pbest_step_mono p p' Hstep) as [Hm1 Hm2].
  assert (i < length (swarm st))%nat by (by eapply lookup_lt_Some).
  destruct (raise_gbest_cases p' (mkWorld (<[i:=p']> (swarm st)) (gbest st) g))
    as [[Hlt ->] | [Hge ->]]; split; cbn in *.
  - by rewrite length_insert.
  - intros j r Hj. apply list_lookup_insert_Some in Hj as [(<- & <- & _) | (_ & Hj)]; eauto.
  - intros j r Hj. apply list_lookup_insert_Some in Hj as [(<- & <- & _) | (_ & Hj)].
    + destruct Hstep as [(_ & _ & ->) | (_ & _ & ->)]; lra.
    + pose proof (Hub j r Hj). lra.
  - exists i, p'. rewrite list_lookup_insert_eq by done.
    destruct Hstep as [(_ & -> & ->) | (? & _ & _)]; [done | lra].
  - by rewrite length_insert.
  - intros j r Hj. apply list_lookup_insert_Some in Hj as [(<- & <- & _) | (_ & Hj)]; eauto.
  - intros j r Hj. apply list_lookup_insert_Some in Hj as [(<- & <- & _) | (_ & Hj)].
    + destruct Hstep as [(_ & _ & ->) | (_ & _ & ->)]; lra.
    + eauto.
  - destruct (decide (k = i)) as [-> | Hki].
    + rewrite Hq in Hp. injection Hp as <-.
      exists i, p'. rewrite list_lookup_insert_eq by done.
      destruct Hstep as [(? & _ & _) | (_ & -> & ->)]; [qlra | done].
    + exists k, q. by rewrite list_lookup_insert_ne by congruence.
Qed.

Lemma progress_replace (st : world G) (i : nat) (p p' : particle) (g : G) :
  swarm st !! i = Some p -> pbest_fit p <= pbest_fit p' ->
  progress st (raise_gbest p' (mkWorld (<[i:=p']> (swarm st)) (gbest st) g)).
Proof.
  intros Hp Hle.
  assert (Hpb : forall j q q', swarm st !! j = Some q ->
            <[i:=p']> (swarm st) !! j = Some q' -> pbest_fit q <= pbest_fit q').
  { intros j q q' Hq Hq'.
    apply list_lookup_insert_Some in Hq' as [(<- & <- & _) | (_ & Hq')].
    - rewrite Hq in Hp. by injection Hp as ->.
    - rewrite Hq in Hq'. injection Hq' as ->. lra. }
  destruct (raise_gbest_cases p' (mkWorld (<[i:=p']> (swarm st)) (gbest st) g))
    as [[Hlt ->] | [Hge ->]]; split; cbn in *; rewrite ?length_insert;
    first [done | exact Hpb | lra].
Qed.

Lemma ParticleMove_body_inv (P : params) (gpos : Q) (i : nat) (st : world G) :
  params_wf P -> swarm_inv P st -> swarm_inv P (ParticleMove_body P gpos i @@ st).
Proof.
  intros HP Hinv. rewrite ParticleMove_body_exec.
  destruct (swarm st !! i) as [p|] eqn:Hp; [| done].
  apply (swarm_inv_replace P st i p); [done | done | | apply move_particle_pbest_step].
  apply move_particle_wf; [done | exact (inv_particles P st Hinv i p Hp)].
Qed.

Lemma ParticleMove_body_progress (P : params) (gpos : Q) (i : nat) (st : world G) :
  progress st (ParticleMove_body P gpos i @@ st).
Proof.
  rewrite ParticleMove_body_exec.
  destruct (swarm st !! i) as [p|] eqn:Hp; [| reflexivity].
  apply (progress_replace st i p); [done |].
  apply pbest_step_mono, move_particle_pbest_step.
Qed.

Lemma ParticleMove_exec (P : params) (st : world G) :
  ParticleMove P @@ st = for_loop (particle_cnt P) (ParticleMove_body P (position (gbest st))) @@ st.
Proof. reflexivity. Qed.

(** A generation keeps the size of the block it sweeps. *)
Lemma ParticleMove_length (P : params) (st : world G) :
  length (swarm (ParticleMove P @@ st)) = length (swarm st).
Proof.
  rewrite ParticleMove_exec. unfold for_loop.
  apply (for_from_inv _ (fun w => length (swarm w) = length (swarm st))); [| done].
  intros j w _ Hw. rewrite ParticleMove_body_exec. destruct (swarm w !! j); [| done].
  cbn zeta. rewrite swarm_raise_gbest. cbn. by rewrite length_insert.
Qed.
End Body.

(** ** What one generation does to each particle *)

Lemma sweep_inv_step {G : Type} `{!RandSource G, !RandSourceLaws G}
    (P : params) (gpos : Q) (st st' : world G) (j : nat) :
  (j < length (swarm st))%nat -> sweep_inv P gpos st j st' ->
  sweep_inv P gpos st (S j) (ParticleMove_body P gpos j @@ st').
Proof.
  intros Hj [Hl Hk].
  destruct (lookup_lt_is_Some_2 (swarm st) j Hj) as [pj Hpj].
  pose proof (proj2 (Hk j pj Hpj) ltac:(lia)) as Hpj'.
  rewrite ParticleMove_body_exec, Hpj'. cbv zeta. unfold sweep_inv.
  rewrite swarm_raise_gbest. cbn. split; [by rewrite length_insert |].
  intros k p Hp. destruct (decide (k = j)) as [-> | Hne].
  - rewrite Hpj in Hp. injection Hp as <-. split; [| lia]. intros _.
    eexists _, _. split; [apply RND_range |]. split; [apply RND_range |].
    apply list_lookup_insert_eq. lia.
  - rewrite list_lookup_insert_ne by congruence. destruct (Hk k p Hp) as [Hlt Hge].
    split; [intros Hk'; apply Hlt; lia | intros Hk'; apply Hge; lia].
Qed.

(** One generation moves every particle exactly once, by [move_particle]
    towards the global best position read at the start of the generation,
    with two draws in [0, 1]. *)
Lemma ParticleMove_each {G : Type} `{!RandSource G, !RandSourceLaws G} (P : params) (st : world G) :
  length (swarm st) = particle_cnt P ->
  length (swarm (ParticleMove P @@ st)) = particle_cnt P /\
  forall i p, swarm st !! i = Some p ->
  exists r1 r2, 0 <= r1 <= 1 /\ 0 <= r2 <= 1 /\
    swarm (ParticleMove P @@ st) !! i = Some (move_particle P (position (gbest st)) r1 r2 p).
Proof.
  intros Hl. rewrite ParticleMove_exec. unfold for_loop.
  assert (Hend : forall st', sweep_inv P (position (gbest st)) st (0 + particle_cnt P) st' ->
    length (swarm st') = particle_cnt P /\
    forall i p, swarm st !! i = Some p ->
    exists r1 r2, 0 <= r1 <= 1 /\ 0 <= r2 <= 1 /\
      swarm st' !! i = Some (move_particle P (position (gbest st)) r1 r2 p)).
  { intros st' [Hl' Hk]. split; [congruence |]. intros i p Hp. apply (Hk i p Hp).
    rewrite <- Hl. cbn. by eapply lookup_lt_Some. }
  apply Hend. apply for_from_ind.
  - intros j st' [_ Hj] Hinv. apply sweep_inv_step; [lia | done].
  - split; [done |]. intros k p Hp. split; [lia | intros _; done].
Qed.

(** ** The other evaluation order *)

Lemma ParticleMove_rl_inv {G : Type} `{!RandSource G} (P : params) (st : world G) :
  params_wf P -> swarm_inv P st -> swarm_inv P (ParticleMove_rl P @@ st).
Proof.
  intros HP Hinv.
  change (ParticleMove_rl P @@ st) with
    (for_loop (particle_cnt P) (ParticleMove_body_rl P (position (gbest st))) @@ st).
  unfold for_loop.
  apply for_from_inv; [| exact Hinv].
  intros j st' _ Hinv'. rewrite ParticleMove_body_rl_exec.
  destruct (swarm st' !! j) as [p|] eqn:Hp; [| done].
  apply (swarm_inv_replace P st' j p); [done | done | | apply move_particle_pbest_step].
  apply move_particle_wf; [done | exact (inv_particles P st' Hinv' j p Hp)].
Qed.

(** ** Particles that do not move *)

Lemma move_particle_at_rest (P : params) (gpos r1 r2 : Q) (p : particle) :
  w P == 0 -> c1 P == 0 -> c2 P == 0 -> 0 <= max_v P -> in_bounds P (position p) ->
  velocity (move_particle P gpos r1 r2 p) == 0 /\
  position (move_particle P gpos r1 r2 p) == position p.
Proof.
  intros Hw Hc1 Hc2 Hv Hin.
  set (raw := w P * velocity p + c1 P * r1 * (pbest_pos p - position p) +
              c2 P * r2 * (gpos - position p)).
  assert (Hraw : raw == 0) by (unfold raw; rewrite Hw, Hc1, Hc2; ring).
  assert (Hcv : clamp_velocity P raw = raw) by (apply clamp_velocity_id; lra).
  assert (Hcp : clamp_position P (position p + raw) = position p + raw).
  { apply clamp_position_id. unfold in_bounds in *. lra. }
  unfold move_particle. cbn zeta. fold raw. rewrite Hcv, Hcp.
  destruct (Qltb _ _); cbn; split; lra.
Qed.

#[export] Instance positions_kept_preorder {G : Type} : PreOrder (@positions_kept G).
Proof.
  split.
  - intros st. split; [done |]. intros i p p' H H'. rewrite H in H'. by injection H' as ->.
  - intros st1 st2 st3 [L12 P12] [L23 P23]. split; [congruence |].
    intros i p p'' H1 H3.
    destruct (lookup_lt_is_Some_2 (swarm st2) i) as [p' H2].
    { rewrite L12. by apply lookup_lt_Some in H1. }
    rewrite (P23 i p' p'' H2 H3). exact (P12 i p p' H1 H2).
Qed.

Lemma positions_kept_replace {G : Type} (st : world G) (i : nat) (p p' : particle) (g : G) :
  swarm st !! i = Some p -> position p' == position p ->
  positions_kept st (raise_gbest p' (mkWorld (<[i:=p']> (swarm st)) (gbest st) g)).
Proof.
  intros Hp Hpos. unfold positions_kept. rewrite swarm_raise_gbest. cbn.
  split; [apply length_insert |]. intros j q q' Hq Hq'.
  apply list_lookup_insert_Some in Hq' as [(<- & <- & _) | (_ & Hq')].
  - rewrite Hq in Hp. by injection Hp as ->.
  - rewrite Hq in Hq'. by injection Hq' as ->.
Qed.

Lemma ParticleMove_body_keeps_positions {G : Type} `{!RandSource G}
    (P : params) (gpos : Q) (i : nat) (st : world G) :
  w P == 0 -> c1 P == 0 -> c2 P == 0 -> params_wf P -> swarm_inv P st ->
  positions_kept st (ParticleMove_body P gpos i @@ st).
Proof.
  intros Hw Hc1 Hc2 [_ Hv] Hinv. rewrite ParticleMove_body_exec.
  destruct (swarm st !! i) as [p|] eqn:Hp; [| reflexivity].
  apply (positions_kept_replace st i p); [done |].
  apply move_particle_at_rest; try done.
  exact (wf_position P p (inv_particles P st Hinv i p Hp)).
Qed.

Lemma ParticleMove_keeps_positions {G : Type} `{!RandSource G} (P : params) (st : world G) :
  w P == 0 -> c1 P == 0 -> c2 P == 0 -> params_wf P -> swarm_inv P st ->
  swarm_inv P (ParticleMove P @@ st) /\ positions_kept st (ParticleMove P @@ st).
Proof.
  intros Hw Hc1 Hc2 HP Hinv. rewrite ParticleMove_exec. unfold for_loop.
  apply (for_from_inv _ (fun st' => swarm_inv P st' /\ positions_kept st st')).
  - intros j st' _ [Hinv' Hkept]. split; [by apply ParticleMove_body_inv |].
    etrans; [exact Hkept | by apply ParticleMove_body_keeps_positions].
  - split; [done | reflexivity].
Qed.

(** With [w = c1 = c2 = 0], after one generation every particle is at rest:
    iteration [j] of the sweep sets particle [j]'s velocity to [0] and
    leaves the others. *)
Lemma ParticleMove_zero_velocity {G : Type} `{!RandSource G} (P : params) (st : world G) :
  w P == 0 -> c1 P == 0 -> c2 P == 0 -> params_wf P -> swarm_inv P st ->
  forall i p, swarm (ParticleMove P @@ st) !! i = Some p -> velocity p == 0.
Proof.
  intros Hw Hc1 Hc2 HP Hinv. rewrite ParticleMove_exec. unfold for_loop.
  set (gpos := position (gbest st)).
  assert (Hend : forall st' : world G, swarm_inv P st' /\
            (forall k p, (k < 0 + particle_cnt P)%nat -> swarm st' !! k = Some p -> velocity p == 0) ->
            forall i p, swarm st' !! i = Some p -> velocity p == 0).
  { intros st' [Hinv' Hv] i p Hp. apply (Hv i p); [| done].
    rewrite <- (inv_length P st' Hinv'). by eapply lookup_lt_Some. }
  apply Hend. clear Hend.
  apply (for_from_ind _ (fun j st' => swarm_inv P st' /\
           forall k p, (k < j)%nat -> swarm st' !! k = Some p -> velocity p == 0)).
  - intros j st' [_ Hj] [Hinv' Hv]. split; [by apply ParticleMove_body_inv |].
    rewrite ParticleMove_body_exec.
    destruct (swarm st' !! j) as [q|] eqn:Hq.
    + intros k p Hk Hp. rewrite swarm_raise_gbest in Hp. cbn in Hp.
      apply list_lookup_insert_Some in Hp as [(<- & <- & _) | (Hne & Hp)].
      * apply move_particle_at_rest; try done; [apply HP |].
        exact (wf_position P q (inv_particles P st' Hinv' j q Hq)).
      * apply (Hv k p); [lia | done].
    + exfalso. apply lookup_ge_None in Hq. pose proof (inv_length P st' Hinv'). lia.
  - split; [done | intros; lia].
Qed.

(** ** Properties of one generation *)

(** C5: whatever the two draws (even outside [0, 1]), a moved particle's
    velocity is within [-max_v, max_v] and its position within
    [min_pos, max_pos], and its cached fitness is the objective at its
    position. *)
Theorem move_particle_clamped (P : params) (gpos r1 r2 : Q) (p : particle) :
  params_wf P ->
  let p' := move_particle P gpos r1 r2 p in
  (- max_v P <= velocity p' <= max_v P) /\ (min_pos P <= position p' <= max_pos P) /\
  fitness p' = fit (position p').
Proof.
  intros [Hpos Hv]. unfold move_particle. cbn zeta.
  destruct (Qltb _ _); cbn;
    (split; [apply clamp_velocity_range; exact Hv |]);
    (split; [apply clamp_position_range; exact Hpos | reflexivity]).
Qed.

(** A move never lowers a particle's personal best, and leaves it at least
    the particle's new fitness. *)
Lemma move_particle_pbest_monotone (P : params) (gpos r1 r2 : Q) (p : particle) :
  let p' := move_particle P gpos r1 r2 p in
  pbest_fit p <= pbest_fit p' /\ fitness p' <= pbest_fit p'.
Proof. apply pbest_step_mono, move_particle_pbest_step. Qed.

Section Generation.
Context {G : Type} `{!RandSource G}.

Lemma ParticleMove_inv (P : params) (st : world G) :
  params_wf P -> swarm_inv P st -> swarm_inv P (ParticleMove P @@ st).
Proof.
  intros HP Hinv. rewrite ParticleMove_exec. unfold for_loop.
  apply for_from_inv; [| exact Hinv].
  intros j st' _. by apply ParticleMove_body_inv.
Qed.

Lemma ParticleMove_prog (P : params) (st : world G) :
  progress st (ParticleMove P @@ st).
Proof.
  rewrite ParticleMove_exec. unfold for_loop.
  apply for_from_rel; [apply _ |]. intros j st' _. apply ParticleMove_body_progress.
Qed.

(** C4: one generation preserves the state invariant: every particle stays
    in the search space and under the speed limit with consistent cached
    fitness, and [gbest] remains the best personal best of the swarm. *)
Theorem ParticleMove_preserves_inv (P : params) (st : world G) :
  params_wf P -> swarm_inv P st -> swarm_inv P (ParticleMove P @@ st).
Proof. apply ParticleMove_inv. Qed.

End Generation.

(** C16: the state invariant does not depend on the order in which the
    compiler evaluates the two [RND()] calls of line 164: the right-to-left
    compilation of [ParticleMove] preserves it too. *)
Theorem ParticleMove_rl_preserves_inv {G : Type} `{!RandSource G} (P : params) (st : world G) :
  params_wf P -> swarm_inv P st -> swarm_inv P (ParticleMove_rl P @@ st).
Proof. apply ParticleMove_rl_inv. Qed.

(** C17: the trajectory does depend on it: from the same state and the same
    generator, the two compilations of one generation move particle [0] to
    different positions. *)
Theorem evaluation_order_changes_trajectory :
  exists p p', swarm (ParticleMove demo_params @@ demo_world) !! 0%nat = Some p /\
    swarm (ParticleMove_rl demo_params @@ demo_world) !! 0%nat = Some p' /\
    ~ (position p == position p').
Proof.
  do 2 eexists. split; [vm_compute; reflexivity |]. split; [vm_compute; reflexivity |].
  vm_compute. discriminate.
Qed.

(** C18: the functional specification of one generation: every particle
    of the swarm is replaced, exactly once, by [move_particle] with the
    global best position read at the start of the generation as attraction
    target (not the one updated during the sweep) and with two draws in
    [0, 1]; the swarm keeps its size. *)
Theorem ParticleMove_moves_each_once {G : Type} `{!RandSource G, !RandSourceLaws G}
    (P : params) (st : world G) :
  length (swarm st) = particle_cnt P ->
  length (swarm (ParticleMove P @@ st)) = particle_cnt P /\
  forall i p, swarm st !! i = Some p ->
  exists r1 r2, 0 <= r1 <= 1 /\ 0 <= r2 <= 1 /\
    swarm (ParticleMove P @@ st) !! i = Some (move_particle P (position (gbest st)) r1 r2 p).
Proof. apply ParticleMove_each. Qed.

(** With [w = c1 = c2 = 0] (the spec's scenario) the new velocity is [0]
    and a particle in the search space stays where it is, whatever the
    draws and the attraction target. *)
Theorem move_particle_still (P : params) (gpos r1 r2 : Q) (p : particle) :
  w P == 0 -> c1 P == 0 -> c2 P == 0 -> 0 <= max_v P -> in_bounds P (position p) ->
  velocity (move_particle P gpos r1 r2 p) == 0 /\
  position (move_particle P gpos r1 r2 p) == position p.
Proof. apply move_particle_at_rest. Qed.

(** ** Witnesses *)

Lemma move_particle_clamped_witness :
  params_wf demo_params /\
  let p' := move_particle demo_params 90 1 1 (mkParticle 10 150 (fit 10) 95 (fit 95)) in
  (- max_v demo_params <= velocity p' <= max_v demo_params) /\
  (min_pos demo_params <= position p' <= max_pos demo_params) /\ fitness p' = fit (position p').
Proof. split; [by_compute | apply move_particle_clamped; by_compute]. Defined.

Lemma ParticleMove_preserves_inv_witness :
  params_wf demo_params /\ swarm_inv demo_params demo_world /\
  swarm_inv demo_params (ParticleMove demo_params @@ demo_world).
Proof.
  split_and!; [by_compute | by_compute |].
  apply ParticleMove_preserves_inv; by_compute.
Defined.

Lemma ParticleMove_rl_preserves_inv_witness :
  params_wf demo_params /\ swarm_inv demo_params demo_world /\
  swarm_inv demo_params (ParticleMove_rl demo_params @@ demo_world).
Proof.
  split_and!; [by_compute | by_compute |].
  apply ParticleMove_rl_preserves_inv; by_compute.
Defined.

Lemma ParticleMove_moves_each_once_witness :
  length (swarm demo_world) = particle_cnt demo_params /\
  length (swarm (ParticleMove demo_params @@ demo_world)) = particle_cnt demo_params /\
  forall i p, swarm demo_world !! i = Some p ->
  exists r1 r2, 0 <= r1 <= 1 /\ 0 <= r2 <= 1 /\
    swarm (ParticleMove demo_params @@ demo_world) !! i =
      Some (move_particle demo_params (position (gbest demo_world)) r1 r2 p).
Proof. split; [reflexivity | apply ParticleMove_moves_each_once; reflexivity]. Defined.
