(* ===== verification/Init.v ===== *)
(** * Initialisation: [ParticleInit] of [src/pso_linReg.c] (lines 129-148)

    [ParticleInit] seeds the generator with [srand((unsigned)time(NULL))],
    then for [i = 0 .. particle_cnt-1] draws the particle's position in
    [min_pos, min_pos + pos_range] and its velocity in [0, max_v], records
    the position as its personal best, and copies the particle into [gbest]
    when [i == 0] or when its fitness beats the current global best.
    [init_particle] is lines 138-142, [ParticleInit_body] one iteration.
    The theorems: a fresh particle is well formed and its velocity is
    nonnegative, and for a nonempty swarm [ParticleInit] establishes
    [swarm_inv], whatever the swarm held before. *)

From Stdlib Require Import QArith Qabs Lqa ZArith.
From stdpp Require Import base list.
From S2P Require Import Prelude Fitness Random Particle.

Open Scope Q_scope.

(** Lines 138-142 for the draws [r1] (position) and [r2] (velocity). *)
Definition init_particle (P : params) (pos_range r1 r2 : Q) : particle :=
  let pos := r1 * pos_range + min_pos P in
  let v := r2 * max_v P in
  let f := fit pos in
  mkParticle pos v f pos f.

Section Init.
Context {G : Type} `{!RandSource G}.

(** Lines 136-147: iteration [i]; [if(i==0 || p[i].pbest_fit > gbest.fitness)
    memcpy(&gbest, &p[i], sizeof(particle));]. *)
Definition ParticleInit_body (P : params) (pos_range : Q) (i : nat) : St (world G) unit :=
  r1 ← rnd;
  r2 ← rnd;
  let p := init_particle P pos_range r1 r2 in
  modify (fun st =>
    let st := set_swarm (<[i:=p]> (swarm st)) st in
    if (i =? 0)%nat || Qltb (fitness (gbest st)) (pbest_fit p) then set_gbest p st else st).

(** [void ParticleInit(particle *p)]; [now] is the value of [time(NULL)],
    converted to [unsigned] (32 bits) for [srand]. *)
Definition ParticleInit (P : params) (now : Z) : St (world G) unit :=
  let pos_range := max_pos P - min_pos P in
  modify (fun st => set_rng (srand (now mod 2 ^ 32)%Z (rng st)) st) ;;
  for_loop (particle_cnt P) (ParticleInit_body P pos_range).

(** What holds after [j] iterations of the loop: the swarm has its size,
    the particles [0 .. j-1] are initialised (personal best = current
    point) and bounded by [gbest], and once one particle is, [gbest] is one
    of them. *)
Definition init_inv (P : params) (j : nat) (st : world G) : Prop :=
  length (swarm st) = particle_cnt P /\
  (forall k p, (k < j)%nat -> swarm st !! k = Some p ->
     particle_wf P p /\ pbest_fit p <= fitness (gbest st) /\
     pbest_pos p = position p /\ pbest_fit p = fitness p) /\
  ((0 < j)%nat -> exists k p, (k < j)%nat /\ swarm st !! k = Some p /\
     pbest_pos p = position (gbest st) /\ pbest_fit p = fitness (gbest st)).
End Init.

(** ** Lemmas *)

Lemma init_particle_wf (P : params) (r1 r2 : Q) :
  params_wf P -> 0 <= r1 <= 1 -> 0 <= r2 <= 1 ->
  particle_wf P (init_particle P (max_pos P - min_pos P) r1 r2).
Proof.
  intros [Hpos Hv] Hr1 Hr2. unfold in_bounds.
  pose proof (Qscale_unit_range r1 (min_pos P) (max_pos P) Hr1 Hpos).
  constructor; cbn; [done | nra | done | done | done | lra].
Qed.

Section InitFacts.
Context {G : Type} `{!RandSource G}.

Lemma ParticleInit_body_exec (P : params) (pos_range : Q) (i : nat) (st : world G) :
  ParticleInit_body P pos_range i @@ st =
  let g1 := snd (RND (rng st)) in
  let p := init_particle P pos_range (fst (RND (rng st))) (fst (RND g1)) in
  let st' := mkWorld (<[i:=p]> (swarm st)) (gbest st) (snd (RND g1)) in
  if (i =? 0)%nat || Qltb (fitness (gbest st)) (pbest_fit p) then set_gbest p st' else st'.
Proof.
  unfold ParticleInit_body, exec, mbind, St_bind, modify.
  rewrite rnd_unfold. cbn. rewrite rnd_unfold. reflexivity.
Qed.

Lemma init_inv_step (P : params) (j : nat) (st : world G) (p : particle) (g : G) :
  (j < particle_cnt P)%nat -> init_inv P j st -> particle_wf P p ->
  pbest_pos p = position p -> pbest_fit p = fitness p ->
  init_inv P (S j)
    (let st' := mkWorld (<[j:=p]> (swarm st)) (gbest st) g in
     if (j =? 0)%nat || Qltb (fitness (gbest st)) (pbest_fit p) then set_gbest p st' else st').
Proof.
  intros Hj (Hl & Hold & Hatt) Hwf Hpp Hpf. cbn zeta.
  assert (Hjl : (j < length (swarm st))%nat) by lia.
  destruct ((j =? 0)%nat || Qltb (fitness (gbest st)) (pbest_fit p)) eqn:Hc.
  - apply orb_true_iff in Hc.
    split_and!; cbn; [by rewrite length_insert | |].
    + intros k q Hk Hq. apply list_lookup_insert_Some in Hq as [(<- & <- & _) | (Hne & Hq)].
      * split_and!; [done | qlra | done | done].
      * destruct Hc as [Hc | Hc]; [apply Nat.eqb_eq in Hc; lia |].
        apply (reflect_iff _ _ (Qltb_spec _ _)) in Hc.
        destruct (Hold k q ltac:(lia) Hq) as (? & ? & ? & ?). split_and!; [done | qlra | done | done].
    + intros _. exists j, p. rewrite list_lookup_insert_eq by done. split_and!; [lia | done ..].
  - apply orb_false_iff in Hc as [Hj0 Hge]. apply Nat.eqb_neq in Hj0.
    assert (pbest_fit p <= fitness (gbest st)).
    { apply Qnot_lt_le. intros Hlt. apply (reflect_iff _ _ (Qltb_spec _ _)) in Hlt. congruence. }
    split_and!; cbn; [by rewrite length_insert | |].
    + intros k q Hk Hq. apply list_lookup_insert_Some in Hq as [(<- & <- & _) | (Hne & Hq)].
      * split_and!; done.
      * apply (Hold k q); [lia | done].
    + intros _. destruct (Hatt ltac:(lia)) as (k & q & Hk & Hq & Hqp & Hqf).
      exists k, q. rewrite list_lookup_insert_ne by lia. split_and!; [lia | done ..].
Qed.

Lemma init_inv_swarm_inv (P : params) (st : world G) :
  (0 < particle_cnt P)%nat -> init_inv P (particle_cnt P) st -> swarm_inv P st.
Proof.
  intros Hn (Hl & Hps & Hatt).
  assert (Hall : forall i p, swarm st !! i = Some p ->
            particle_wf P p /\ pbest_fit p <= fitness (gbest st)).
  { intros i p Hp. destruct (Hps i p) as (? & ? & _); [| done | done].
    rewrite <- Hl. by eapply lookup_lt_Some. }
  split; [done | intros i p Hp; apply (Hall i p Hp) .. |].
  destruct (Hatt Hn) as (k & q & _ & ?). by exists k, q.
Qed.
(** After the loop every particle's personal best is its current point. *)
Lemma init_inv_fresh (P : params) (st : world G) :
  init_inv P (particle_cnt P) st ->
  forall i p, swarm st !! i = Some p -> pbest_pos p = position p /\ pbest_fit p = fitness p.
Proof.
  intros (Hl & Hps & _) i p Hp. destruct (Hps i p) as (_ & _ & ? & ?); [| done | done].
  rewrite <- Hl. by eapply lookup_lt_Some.
Qed.

(** The initialisation keeps the size of the block it fills. *)
Lemma ParticleInit_length (P : params) (now : Z) (st : world G) :
  length (swarm (ParticleInit P now @@ st)) = length (swarm st).
Proof.
  unfold ParticleInit, for_loop. rewrite exec_bind.
  apply (for_from_inv _ (fun w => length (swarm w) = length (swarm st))); [| done].
  intros j w _ Hw. rewrite ParticleInit_body_exec. cbn zeta.
  destruct (_ || _); cbn; by rewrite length_insert.
Qed.
End InitFacts.

(** ** Properties of the initialisation *)

(** A fresh particle's velocity is drawn in [0, max_v], not in
    [-max_v, max_v]: it never starts moving towards smaller positions. *)
Lemma init_particle_velocity_range (P : params) (pos_range r1 r2 : Q) :
  0 <= max_v P -> 0 <= r2 <= 1 ->
  0 <= velocity (init_particle P pos_range r1 r2) <= max_v P.
Proof. intros Hv Hr2. cbn. nra. Qed.

Section InitProps.
Context {G : Type} `{!RandSource G, !RandSourceLaws G}.

Lemma ParticleInit_init_inv (P : params) (now : Z) (st : world G) :
  params_wf P -> length (swarm st) = particle_cnt P ->
  init_inv P (particle_cnt P) (ParticleInit P now @@ st).
Proof.
  intros HP Hl. unfold ParticleInit. rewrite exec_bind. unfold for_loop.
  apply (for_from_ind _ (init_inv P) 0 (particle_cnt P)).
  - intros j st' [_ Hj] Hinv. rewrite ParticleInit_body_exec.
    apply init_inv_step; [lia | done | | done | done].
    apply init_particle_wf; [done | apply RND_range ..].
  - split_and!; [done | intros; lia | intros; lia].
Qed.

Lemma ParticleInit_inv (P : params) (now : Z) (st : world G) :
  params_wf P -> (0 < particle_cnt P)%nat -> length (swarm st) = particle_cnt P ->
  swarm_inv P (ParticleInit P now @@ st).
Proof. intros HP Hn Hl. apply init_inv_swarm_inv; [done |]. by apply ParticleInit_init_inv. Qed.

(** After [ParticleInit] every particle's personal best is its own point. *)
Lemma ParticleInit_fresh (P : params) (now : Z) (st : world G) :
  params_wf P -> length (swarm st) = particle_cnt P ->
  forall i p, swarm (ParticleInit P now @@ st) !! i = Some p ->
  pbest_pos p = position p /\ pbest_fit p = fitness p.
Proof. intros HP Hl. apply (init_inv_fresh P). by apply ParticleInit_init_inv. Qed.

(** C6: for a nonempty swarm of the allocated size, [ParticleInit]
    establishes the state invariant from any contents of the swarm and any
    previous [gbest]: every particle in the search space and under the
    speed limit, cached fitness consistent, [gbest] the best personal best. *)
Theorem ParticleInit_establishes_inv (P : params) (now : Z) (st : world G) :
  params_wf P -> (0 < particle_cnt P)%nat -> length (swarm st) = particle_cnt P ->
  swarm_inv P (ParticleInit P now @@ st).
Proof. apply ParticleInit_inv. Qed.
End InitProps.

(** ** Witnesses *)

(** Two particles, allocated but not yet initialised (they hold junk). *)
Lemma ParticleInit_establishes_inv_witness :
  let P := mkParams 1 2 2 200 100 (-100) 2 in
  let st := mkWorld [mkParticle 7 7 7 7 7; mkParticle 7 7 7 7 7] (mkParticle 0 0 0 0 0)
              (Replay.mkState [5; 32000; 17; 4]%Z) in
  (params_wf P /\ (0 < particle_cnt P)%nat /\ length (swarm st) = particle_cnt P) /\
  swarm_inv P (ParticleInit P 1234 @@ st).
Proof.
  cbv zeta. split; [split_and!; [by_compute | cbn; lia | reflexivity] |].
  apply ParticleInit_establishes_inv; [by_compute | cbn; lia | reflexivity].
Defined.
