(* ===== verification/Sweep.v ===== *)
(** * Reference specifications of the two sweeps

    [ParticleInit] and [ParticleMove] are C loops that overwrite [p[i]] in
    place and update the global [gbest] as they go.  This file gives each a
    reference definition that says what the loop computes without the
    in-place updates: a recursion down the list of particles that threads
    the generator and returns the new particles ([init_all], [move_all]),
    and the global best as a left fold of "replace when strictly better"
    over them ([better]).  The theorems are the equivalences: on a swarm of
    [particle_cnt] particles, the loop ends in exactly the state the
    reference definition describes. *)

From Stdlib Require Import QArith Qabs Lqa ZArith.
From stdpp Require Import base list.
From S2P Require Import Prelude Fitness Random Particle Move Init.

Open Scope Q_scope.

(** The comparison both sweeps make before copying a particle into
    [gbest]: keep [b] unless [p] is strictly fitter. *)
Definition better (b p : particle) : particle :=
  if Qltb (fitness b) (fitness p) then p else b.

(** The global best a sequence of candidates leaves behind, from [b]. *)
Definition best_of (b : particle) (ps : list particle) : particle :=
  fold_left better ps b.

Section Spec.
Context {G : Type} `{!RandSource G}.

(** The particles [ParticleMove] produces from [ps], in order, each moved
    with the next two draws of the generator, and the generator after. *)
Fixpoint move_all (P : params) (gpos : Q) (ps : list particle) (g : G) : list particle * G :=
  match ps with
  | [] => ([], g)
  | p :: ps' =>
      let '(r1, g1) := RND g in
      let '(r2, g2) := RND g1 in
      let '(qs, g') := move_all P gpos ps' g2 in
      (move_particle P gpos r1 r2 p :: qs, g')
  end.

(** The [n] fresh particles [ParticleInit] draws, and the generator after. *)
Fixpoint init_all (P : params) (pos_range : Q) (n : nat) (g : G) : list particle * G :=
  match n with
  | O => ([], g)
  | S n' =>
      let '(r1, g1) := RND g in
      let '(r2, g2) := RND g1 in
      let '(ps, g') := init_all P pos_range n' g2 in
      (init_particle P pos_range r1 r2 :: ps, g')
  end.
End Spec.

(** The global best after [ParticleInit]: the first particle (the [i == 0]
    case), then [better] over the others; [b] when there is none. *)
Definition init_best (b : particle) (ps : list particle) : particle :=
  match ps with
  | [] => b
  | p :: ps' => best_of p ps'
  end.

(** [best_of b ps] is the first of [b :: ps] whose fitness is maximal: the
    candidates before it are strictly less fit, those after at most as
    fit. *)
Definition first_max (cs : list particle) (m : particle) : Prop :=
  exists pre post, cs = pre ++ m :: post /\
    Forall (fun x => fitness x < fitness m) pre /\
    Forall (fun x => fitness x <= fitness m) post.

(** ** The sweep of [ParticleMove] *)

Section MoveSpec.
Context {G : Type} `{!RandSource G}.

Lemma raise_gbest_world (p b : particle) (s : list particle) (g : G) :
  raise_gbest p (mkWorld s b g) = mkWorld s (better b p) g.
Proof. unfold raise_gbest, better. cbn. by destruct (Qltb _ _). Qed.

(** Iteration [i] on a swarm whose [i]-th particle is [p]. *)
Lemma ParticleMove_body_middle (P : params) (gpos : Q) (done rest : list particle)
    (p b : particle) (g : G) :
  ParticleMove_body P gpos (length done) @@ mkWorld (done ++ p :: rest) b g =
  let '(r1, g1) := RND g in
  let '(r2, g2) := RND g1 in
  let p' := move_particle P gpos r1 r2 p in
  mkWorld (done ++ p' :: rest) (better b p') g2.
Proof.
  rewrite ParticleMove_body_exec. cbn [swarm rng gbest].
  rewrite list_lookup_middle by done.
  destruct (RND g) as [r1 g1]; cbn [fst snd]. destruct (RND g1) as [r2 g2]; cbn [fst snd].
  by rewrite list_insert_middle, raise_gbest_world.
Qed.

(** The loop from index [length done] to the end of the swarm. *)
Lemma ParticleMove_loop (P : params) (gpos : Q) (done rest : list particle) (b : particle) (g : G) :
  for_from (length done) (length rest) (ParticleMove_body P gpos) @@ mkWorld (done ++ rest) b g =
  let '(qs, g') := move_all P gpos rest g in mkWorld (done ++ qs) (best_of b qs) g'.
Proof.
  revert done b g. induction rest as [|p rest IH]; intros done b g; cbn [length move_all].
  - by rewrite for_from_0, !app_nil_r.
  - rewrite for_from_S, ParticleMove_body_middle.
    destruct (RND g) as [r1 g1]; destruct (RND g1) as [r2 g2].
    set (p' := move_particle P gpos r1 r2 p). cbn zeta.
    rewrite app_cons_snoc.
    replace (S (length done)) with (length (done ++ [p'])) by (rewrite length_app; cbn; lia).
    rewrite IH. destruct (move_all P gpos rest g2) as [qs g']. by rewrite <- app_cons_snoc.
Qed.

Lemma ParticleMove_move_all (P : params) (st : world G) :
  length (swarm st) = particle_cnt P ->
  ParticleMove P @@ st =
  let '(qs, g) := move_all P (position (gbest st)) (swarm st) (rng st) in
  mkWorld qs (best_of (gbest st) qs) g.
Proof.
  intros Hl. unfold ParticleMove, for_loop. rewrite exec_bind.
  destruct st as [s b g]; cbn in *. rewrite <- Hl.
  apply (ParticleMove_loop P (position b) []).
Qed.
End MoveSpec.

(** ** The sweep of [ParticleInit] *)

Section InitSpec.
Context {G : Type} `{!RandSource G}.

(** Iteration [i] writes the fresh particle over whatever [p[i]] held. *)
Lemma ParticleInit_body_middle (P : params) (pr : Q) (done rest : list particle)
    (q b : particle) (g : G) :
  ParticleInit_body P pr (length done) @@ mkWorld (done ++ q :: rest) b g =
  let '(r1, g1) := RND g in
  let '(r2, g2) := RND g1 in
  let p := init_particle P pr r1 r2 in
  mkWorld (done ++ p :: rest) (if (length done =? 0)%nat then p else better b p) g2.
Proof.
  rewrite ParticleInit_body_exec. cbn [swarm rng gbest].
  destruct (RND g) as [r1 g1]; cbn [fst snd]. destruct (RND g1) as [r2 g2]; cbn [fst snd].
  rewrite list_insert_middle. unfold better.
  by destruct (length done =? 0)%nat, (Qltb _ _).
Qed.

(** The loop after its first iteration: from index [length done > 0] on. *)
Lemma ParticleInit_loop (P : params) (pr : Q) (done rest : list particle) (b : particle) (g : G) :
  done <> [] ->
  for_from (length done) (length rest) (ParticleInit_body P pr) @@ mkWorld (done ++ rest) b g =
  let '(ps, g') := init_all P pr (length rest) g in mkWorld (done ++ ps) (best_of b ps) g'.
Proof.
  revert done b g. induction rest as [|q rest IH]; intros done b g Hd; cbn [length init_all].
  - by rewrite for_from_0, !app_nil_r.
  - rewrite for_from_S, ParticleInit_body_middle.
    destruct (length done) eqn:Hl; [by destruct done |]. cbn [Nat.eqb]. rewrite <- Hl.
    destruct (RND g) as [r1 g1]; destruct (RND g1) as [r2 g2].
    set (p := init_particle P pr r1 r2). cbn zeta.
    rewrite app_cons_snoc.
    replace (S (length done)) with (length (done ++ [p])) by (rewrite length_app; cbn; lia).
    rewrite IH by (by intros []%app_eq_nil).
    destruct (init_all P pr (length rest) g2) as [ps g']. by rewrite <- app_cons_snoc.
Qed.

Lemma ParticleInit_init_all (P : params) (now : Z) (st : world G) :
  length (swarm st) = particle_cnt P ->
  ParticleInit P now @@ st =
  let '(ps, g) := init_all P (max_pos P - min_pos P) (particle_cnt P)
                    (srand (now mod 2 ^ 32)%Z (rng st)) in
  mkWorld ps (init_best (gbest st) ps) g.
Proof.
  intros Hl. unfold ParticleInit, for_loop. rewrite exec_bind.
  destruct st as [s b g]; cbn in *. rewrite <- Hl.
  set (g0 := srand (now mod 2 ^ 32)%Z g). set (pr := max_pos P - min_pos P).
  destruct s as [|q rest]; [reflexivity |].
  cbn [length init_all]. rewrite for_from_S.
  pose proof (ParticleInit_body_middle P pr [] rest q b g0) as E. cbn [length app] in E.
  unfold set_rng; cbn [swarm gbest]. rewrite E. destruct (RND g0) as [r1 g1]; destruct (RND g1) as [r2 g2]. cbn zeta.
  cbn [Nat.eqb]. set (p := init_particle P pr r1 r2).
  pose proof (ParticleInit_loop P pr [p] rest p g2 ltac:(done)) as L. cbn [length app] in L.
  rewrite L. by destruct (init_all P pr (length rest) g2).
Qed.
End InitSpec.

Lemma init_all_length {G : Type} `{!RandSource G} (P : params) (pr : Q) (n : nat) (g : G) :
  length (fst (init_all P pr n g)) = n.
Proof.
  revert g. induction n as [|n IH]; intros g; [done |]. cbn [init_all].
  destruct (RND g) as [r1 g1], (RND g1) as [r2 g2]. specialize (IH g2).
  destruct (init_all P pr n g2). cbn in *. by rewrite IH.
Qed.

(** ** The global best of a sequence of candidates *)

Lemma better_cases (b p : particle) :
  (fitness b < fitness p /\ better b p = p) \/ (fitness p <= fitness b /\ better b p = b).
Proof. unfold better. qcase; [left | right]; split; auto; lra. Qed.

Lemma best_of_cons (b p : particle) (ps : list particle) :
  best_of b (p :: ps) = best_of (better b p) ps.
Proof. reflexivity. Qed.

Lemma best_of_ge (b : particle) (ps : list particle) :
  Forall (fun x => fitness x <= fitness (best_of b ps)) (b :: ps).
Proof.
  revert b. induction ps as [|p ps IH]; intros b; [constructor; [cbn; lra | constructor] |].
  rewrite best_of_cons. specialize (IH (better b p)). inversion IH as [|? ? Hbp Hps]; subst.
  set (r := best_of (better b p) ps) in *.
  destruct (better_cases b p) as [[? E] | [? E]]; rewrite E in Hbp;
    (constructor; [lra | constructor; [lra | done]]).
Qed.

Lemma best_of_first_max (b : particle) (ps : list particle) :
  first_max (b :: ps) (best_of b ps).
Proof.
  revert b. induction ps as [|p ps IH]; intros b.
  - exists [], []. split_and!; [done | constructor | constructor].
  - pose proof (best_of_ge b (p :: ps)) as Hge. rewrite best_of_cons in *.
    destruct (better_cases b p) as [[Hlt E] | [Hle E]]; rewrite E in *;
      apply Forall_cons in Hge as [Hb Hge]; apply Forall_cons in Hge as [Hp _].
    + destruct (IH p) as (pre & post & Heq & Hpre & Hpost).
      exists (b :: pre), post. rewrite Heq. split_and!; [done | constructor; [lra | done] | done].
    + destruct (IH b) as (pre & post & Heq & Hpre & Hpost).
      remember (best_of b ps) as r eqn:Er; clear Er.
      destruct pre as [|x pre]; cbn in Heq; injection Heq as Hx Hps; subst b ps.
      * exists [], (p :: post). split_and!; [done | constructor | by constructor].
      * apply Forall_cons in Hpre as [Hx Hpre].
        exists (x :: p :: pre), post. split_and!; [done | | done].
        constructor; [done | constructor; [lra | done]].
Qed.

(** ** Properties of the two sweeps *)

Section SweepProps.
Context {G : Type} `{!RandSource G}.

(** C21: on a swarm of [particle_cnt] particles, the in-place loop of
    [ParticleMove] computes its reference definition: the new swarm is the
    list of the particles moved in index order towards the snapshot of
    [gbest.position], each with the next two draws, and the new [gbest] is
    the left fold of [better] over them from the old one. *)
Theorem ParticleMove_refines_move_all (P : params) (st : world G) :
  length (swarm st) = particle_cnt P ->
  ParticleMove P @@ st =
  let '(qs, g) := move_all P (position (gbest st)) (swarm st) (rng st) in
  mkWorld qs (best_of (gbest st) qs) g.
Proof. apply ParticleMove_move_all. Qed.

(** C22: on a swarm of [particle_cnt] particles, [ParticleInit] computes its
    reference definition: the swarm becomes the [particle_cnt] fresh
    particles drawn from the generator seeded with [time mod 2^32], whatever
    it held, and [gbest] the first of them, then [better] over the others. *)
Theorem ParticleInit_refines_init_all (P : params) (now : Z) (st : world G) :
  length (swarm st) = particle_cnt P ->
  ParticleInit P now @@ st =
  let '(ps, g) := init_all P (max_pos P - min_pos P) (particle_cnt P)
                    (srand (now mod 2 ^ 32)%Z (rng st)) in
  mkWorld ps (init_best (gbest st) ps) g.
Proof. apply ParticleInit_init_all. Qed.

(** C23: after [ParticleMove], [gbest] is the first of the candidates (the
    old [gbest], then the moved particles in index order) whose fitness is
    largest: every earlier candidate is strictly less fit, every later one
    at most as fit.  Ties keep the earlier candidate. *)
Theorem ParticleMove_gbest_first_max (P : params) (st : world G) :
  length (swarm st) = particle_cnt P ->
  first_max (gbest st :: swarm (ParticleMove P @@ st)) (gbest (ParticleMove P @@ st)).
Proof.
  intros Hl. rewrite ParticleMove_move_all by done.
  destruct (move_all _ _ _ _) as [qs g]. apply best_of_first_max.
Qed.

(** C24: after [ParticleInit] on a nonempty swarm, [gbest] is the first of
    the fresh particles with the largest fitness; the [i == 0] case makes
    the previous contents of [gbest] irrelevant. *)
Theorem ParticleInit_gbest_first_max (P : params) (now : Z) (st : world G) :
  (0 < particle_cnt P)%nat -> length (swarm st) = particle_cnt P ->
  first_max (swarm (ParticleInit P now @@ st)) (gbest (ParticleInit P now @@ st)).
Proof.
  intros Hn Hl. rewrite ParticleInit_init_all by done.
  pose proof (init_all_length P (max_pos P - min_pos P) (particle_cnt P)
                (srand (now mod 2 ^ 32)%Z (rng st))) as Hlen.
  destruct (init_all _ _ _ _) as [[|p ps] g]; cbn in Hlen; [lia |].
  apply best_of_first_max.
Qed.
End SweepProps.

(** ** Witnesses *)

Lemma ParticleMove_refines_move_all_witness :
  length (swarm demo_world) = particle_cnt demo_params /\
  (ParticleMove demo_params @@ demo_world =
  let '(qs, g) := move_all demo_params (position (gbest demo_world)) (swarm demo_world)
                    (rng demo_world) in
  mkWorld qs (best_of (gbest demo_world) qs) g).
Proof. split; [reflexivity | apply ParticleMove_refines_move_all; reflexivity]. Defined.

Lemma ParticleInit_refines_init_all_witness :
  length (swarm demo_world) = particle_cnt demo_params /\
  (ParticleInit demo_params 7 @@ demo_world =
  let '(ps, g) := init_all demo_params (max_pos demo_params - min_pos demo_params)
                    (particle_cnt demo_params) (srand (7 mod 2 ^ 32)%Z (rng demo_world)) in
  mkWorld ps (init_best (gbest demo_world) ps) g).
Proof. split; [reflexivity | apply ParticleInit_refines_init_all; reflexivity]. Defined.

Lemma ParticleMove_gbest_first_max_witness :
  length (swarm demo_world) = particle_cnt demo_params /\
  first_max (gbest demo_world :: swarm (ParticleMove demo_params @@ demo_world))
    (gbest (ParticleMove demo_params @@ demo_world)).
Proof. split; [reflexivity | apply ParticleMove_gbest_first_max; reflexivity]. Defined.

Lemma ParticleInit_gbest_first_max_witness :
  ((0 < particle_cnt demo_params)%nat /\ length (swarm demo_world) = particle_cnt demo_params) /\
  first_max (swarm (ParticleInit demo_params 7 @@ demo_world))
    (gbest (ParticleInit demo_params 7 @@ demo_world)).
Proof.
  split; [split; [cbn; lia | reflexivity] |].
  apply ParticleInit_gbest_first_max; [cbn; lia | reflexivity].
Defined.
