(* ===== verification/Driver.v ===== *)
(** * The driver: [main], [AllocateParticle] and [ParticleDisplay]
    (lines 94-126, 189-204 of [src/pso_linReg.c])

    [main] sets the globals, allocates the swarm, runs [ParticleInit] and
    [max_itera] calls of [ParticleMove], prints the global best and the
    known optimum.  Its inputs that the code does not fix are gathered in
    [run_env]: the clock, whether [malloc] succeeds, the width of [size_t],
    what the fresh block holds, and the generator's state.  Its outcome is
    the two printed pairs, or the undefined behaviour the code reaches: a
    NULL dereference when [malloc] fails, a write past the block when the
    allocation size wraps around.  The theorems: every state of a run
    satisfies [swarm_inv]; the global best never decreases and is the
    maximum of the personal bests; in the default configuration the printed
    fitness is within [0.01] of the known optimum's and the printed point is
    in [-100, 100]; and the behaviours at the edges: an empty swarm, a
    failed [malloc], a wrapped allocation size, the spec's one-particle
    scenario. *)

From Stdlib Require Import QArith Qabs Qminmax Lqa ZArith.
From stdpp Require Import base list.
From S2P Require Import Prelude Fitness Random Particle Move Init.

Open Scope Q_scope.

(** [sizeof(particle)]: five doubles, no padding. *)
Definition sizeof_particle : Z := 40.

(** What [malloc(sizeof(particle)*particle_cnt)] returns: NULL, or a block
    of [capacity] whole records.  The product is computed in [size_t], of
    [size_t_bits] bits, so it wraps around. *)
Inductive alloc_result :=
| Alloc_null
| Alloc_block (capacity : nat).

(** [particle* AllocateParticle()]. *)
Definition AllocateParticle (size_t_bits : Z) (malloc_ok : bool) (particle_cnt : nat) : alloc_result :=
  let bytes := ((sizeof_particle * Z.of_nat particle_cnt) mod 2 ^ size_t_bits)%Z in
  if malloc_ok then Alloc_block (Z.to_nat (bytes / sizeof_particle)) else Alloc_null.

(** The parameters [main] sets (lines 102-105):
    [min_pos = -100.0, max_pos = +100.0; w = 1.00, c1 = 2.0, c2 = 2.0;
    particle_cnt = 2000; max_v = (max_pos-min_pos) * 1.0;]. *)
Definition default_params : params :=
  let min_pos := -100 in
  let max_pos := 100 in
  mkParams 1 2 2 ((max_pos - min_pos) * 1) max_pos min_pos 2000.

(** [unsigned max_itera = 100000;] *)
Definition default_max_itera : nat := 100000.

(** The inputs of a run the code does not fix. *)
Record run_env (G : Type) := mkEnv {
  now : Z;               (** [time(NULL)] *)
  malloc_ok : bool;      (** whether [malloc] finds memory *)
  size_t_bits : Z;       (** the width of [size_t] *)
  junk : particle;       (** what the fresh block holds *)
  rng0 : G               (** the generator's state at start-up *)
}.
Arguments mkEnv {G}.
Arguments now {G}.
Arguments malloc_ok {G}.
Arguments size_t_bits {G}.
Arguments junk {G}.
Arguments rng0 {G}.

(** What a run does: it prints two lines, or reaches undefined behaviour. *)
Inductive outcome :=
| UB_null_deref
| UB_write_past_block
| Printed (best : Q * Q) (known : Q * Q).

Section Driver.
Context {G : Type} `{!RandSource G}.

(** Lines 109-111: [ParticleInit(p); for(i=0; i<max_itera; i++) ParticleMove(p);]. *)
Definition run (P : params) (max_itera : nat) (now : Z) : St (world G) unit :=
  ParticleInit P now ;;
  for_loop max_itera (fun _ => ParticleMove P).

(** [void ParticleDisplay(particle* p)]: the line [best : position , fitness]. *)
Definition ParticleDisplay (st : world G) : Q * Q := (position (gbest st), fitness (gbest st)).

(** The state before [ParticleInit]: the fresh block and the zero [gbest]. *)
Definition start_world (capacity : nat) (env : run_env G) : world G :=
  mkWorld (repeat (junk env) capacity) zero_particle (rng0 env).

(** [int main()] with the parameters and the iteration count as arguments.
    [ParticleInit] writes [p[0] .. p[particle_cnt-1]]: through NULL when
    [malloc] failed, past the block when it is too small.  [ParticleRelease]
    ([free]) has no observable effect. *)
Definition main_with (P : params) (max_itera : nat) (env : run_env G) : outcome :=
  let finish capacity :=
    let st := run P max_itera (now env) @@ start_world capacity env in
    Printed (ParticleDisplay st) (known_x, fit known_x) in
  match AllocateParticle (size_t_bits env) (malloc_ok env) (particle_cnt P) with
  | Alloc_null => if (0 <? particle_cnt P)%nat then UB_null_deref else finish 0%nat
  | Alloc_block c => if (c <? particle_cnt P)%nat then UB_write_past_block else finish c
  end.

(** [int main()]. *)
Definition main (env : run_env G) : outcome := main_with default_params default_max_itera env.
End Driver.

(** ** Concrete configurations *)

(** A run whose generator replays [draws], on a 64-bit target where
    [malloc] succeeds. *)
Definition replay_env (draws : list Z) : run_env Replay.state :=
  mkEnv 0%Z true 64%Z zero_particle (Replay.mkState draws).

(** Three particles on the default search space, default coefficients. *)
Definition small_params : params := mkParams 1 2 2 200 100 (-100) 3.

Definition small_draws : list Z := [100; 2000; 30000; 5; 16000; 16000; 7; 9; 11; 13; 200; 300]%Z.

(** The spec's scenario: one particle, [w = 1], [c1 = c2 = 0]. *)
Definition one_particle_params : params := mkParams 1 0 0 200 100 (-100) 1.

(** The particle starts near the optimum ([6968/32767 * 200 - 100]) with
    velocity [200]. *)
Definition one_particle_draws : list Z := [6968; 32767]%Z.

(** ** Lemmas *)

Lemma AllocateParticle_fits (bits : Z) (cnt : nat) :
  (0 <= bits)%Z -> (sizeof_particle * Z.of_nat cnt < 2 ^ bits)%Z ->
  AllocateParticle bits true cnt = Alloc_block cnt.
Proof.
  intros Hb Hlt. unfold AllocateParticle, sizeof_particle in *.
  rewrite Z.mod_small by lia. rewrite Z.mul_comm, Z.div_mul by lia.
  by rewrite Nat2Z.id.
Qed.

Lemma AllocateParticle_short (bits : Z) (cnt : nat) :
  (0 <= bits)%Z -> (2 ^ bits <= sizeof_particle * Z.of_nat cnt)%Z ->
  exists c, AllocateParticle bits true cnt = Alloc_block c /\ (c < cnt)%nat.
Proof.
  intros Hb Hge. eexists. split; [reflexivity |].
  unfold sizeof_particle in *.
  pose proof (Z.mod_pos_bound (40 * Z.of_nat cnt) (2 ^ bits) ltac:(lia)).
  apply Nat2Z.inj_lt. rewrite Z2Nat.id by (apply Z.div_pos; lia).
  apply Z.div_lt_upper_bound; lia.
Qed.

Section RunFacts.
Context {G : Type} `{!RandSource G}.

Lemma run_exec (P : params) (k : nat) (t : Z) (st : world G) :
  run P k t @@ st = for_loop k (fun _ => ParticleMove P) @@ (ParticleInit P t @@ st).
Proof. unfold run. by rewrite exec_bind. Qed.

Lemma generations_inv (P : params) (k : nat) (st : world G) :
  params_wf P -> swarm_inv P st -> swarm_inv P (for_loop k (fun _ => ParticleMove P) @@ st).
Proof.
  intros HP Hinv. unfold for_loop. apply for_from_inv; [| exact Hinv].
  intros j st' _. by apply ParticleMove_inv.
Qed.

Lemma run_prog (P : params) (k d : nat) (t : Z) (st : world G) :
  progress (run P k t @@ st) (run P (k + d) t @@ st).
Proof.
  rewrite !run_exec. unfold for_loop. rewrite for_from_add.
  apply (for_from_rel _ progress). intros j st' _. apply ParticleMove_prog.
Qed.

(** With an empty swarm no loop body runs: [gbest] keeps its value. *)
Lemma run_empty (P : params) (k : nat) (t : Z) (st : world G) :
  particle_cnt P = 0%nat -> gbest (run P k t @@ st) = gbest st.
Proof.
  intros H0. rewrite run_exec.
  apply (for_from_inv _ (fun st' => gbest st' = gbest st)).
  - intros j st' _ Hst'. rewrite ParticleMove_exec, H0. exact Hst'.
  - unfold ParticleInit. rewrite exec_bind, H0. reflexivity.
Qed.

Lemma main_with_fits (P : params) (n : nat) (env : run_env G) :
  malloc_ok env = true -> (0 <= size_t_bits env)%Z ->
  (sizeof_particle * Z.of_nat (particle_cnt P) < 2 ^ size_t_bits env)%Z ->
  main_with P n env =
  Printed (ParticleDisplay (run P n (now env) @@ start_world (particle_cnt P) env))
    (known_x, fit known_x).
Proof.
  intros Hok Hb Hlt. unfold main_with. rewrite Hok, AllocateParticle_fits by done.
  by rewrite Nat.ltb_irrefl.
Qed.

Lemma generations_keep_positions (P : params) (k : nat) (st : world G) :
  w P == 0 -> c1 P == 0 -> c2 P == 0 -> params_wf P -> swarm_inv P st ->
  positions_kept st (for_loop k (fun _ => ParticleMove P) @@ st).
Proof.
  intros Hw Hc1 Hc2 HP Hinv. unfold for_loop.
  apply (for_from_inv _ (fun st' => swarm_inv P st' /\ positions_kept st st')); [| split; [done | reflexivity]].
  intros j st' _ [Hinv' Hkept].
  destruct (ParticleMove_keeps_positions P st' Hw Hc1 Hc2 HP Hinv') as [Hinv'' Hkept'].
  split; [done | etrans; [exact Hkept | exact Hkept']].
Qed.

Context `{!RandSourceLaws G}.

Lemma run_inv (P : params) (k : nat) (t : Z) (st : world G) :
  params_wf P -> (0 < particle_cnt P)%nat -> length (swarm st) = particle_cnt P ->
  swarm_inv P (run P k t @@ st).
Proof.
  intros HP Hn Hl. rewrite run_exec. apply generations_inv; [done |].
  by apply ParticleInit_inv.
Qed.
Lemma run_succ (P : params) (k : nat) (t : Z) (st : world G) :
  run P (S k) t @@ st = ParticleMove P @@ (run P k t @@ st).
Proof.
  rewrite !run_exec. unfold for_loop.
  replace (S k) with (k + 1)%nat by lia. by rewrite for_from_add, for_from_S, for_from_0.
Qed.

Lemma run_zero (P : params) (t : Z) (st : world G) :
  run P 0 t @@ st = ParticleInit P t @@ st.
Proof. by rewrite run_exec. Qed.

(** Every personal best at generation [k] is the point of the same
    particle at some generation boundary [k0 <= k]. *)
Lemma run_pbest_history (P : params) (k : nat) (t : Z) (st : world G) :
  params_wf P -> (0 < particle_cnt P)%nat -> length (swarm st) = particle_cnt P ->
  forall i q, swarm (run P k t @@ st) !! i = Some q ->
  exists k0 p0, (k0 <= k)%nat /\ swarm (run P k0 t @@ st) !! i = Some p0 /\
    position p0 = pbest_pos q /\ fitness p0 = pbest_fit q.
Proof.
  intros HP Hn Hl. induction k as [|k IH]; intros i q Hq.
  - exists 0%nat, q. split_and!; [lia | done | |];
    rewrite run_zero in Hq; destruct (ParticleInit_fresh P t st HP Hl i q Hq); done.
  - rewrite run_succ in Hq.
    pose proof (run_inv P k t st HP Hn Hl) as Hinv.
    destruct (ParticleMove_each P (run P k t @@ st) (inv_length P _ Hinv)) as [Hl' Heach].
    destruct (lookup_lt_is_Some_2 (swarm (run P k t @@ st)) i) as [p Hp].
    { rewrite (inv_length P _ Hinv), <- Hl'. by eapply lookup_lt_Some. }
    destruct (Heach i p Hp) as (r1 & r2 & _ & _ & Hq').
    rewrite Hq in Hq'. injection Hq' as ->.
    destruct (move_particle_pbest_step P (position (gbest (run P k t @@ st))) r1 r2 p)
      as [(_ & Hpos & Hfit) | (_ & Hpos & Hfit)].
    + exists (S k), (move_particle P (position (gbest (run P k t @@ st))) r1 r2 p).
      split_and!; [lia | by rewrite run_succ | done | done].
    + destruct (IH i p Hp) as (k0 & p0 & Hk0 & Hp0 & Hpos0 & Hfit0).
      exists k0, p0. rewrite Hpos, Hfit. split_and!; [lia | done ..].
Qed.

End RunFacts.

(** ** Properties of a run *)

Section RunProps.
Context {G : Type} `{!RandSource G, !RandSourceLaws G}.

(** C1: after [ParticleInit] and any number of generations, the state
    satisfies [swarm_inv]: every particle is in [min_pos, max_pos] with
    velocity in [-max_v, max_v] and consistent cached fitness values, and
    [gbest] bounds every personal best and is one of them. *)
Theorem run_preserves_inv (P : params) (k : nat) (t : Z) (st : world G) :
  params_wf P -> (0 < particle_cnt P)%nat -> length (swarm st) = particle_cnt P ->
  swarm_inv P (run P k t @@ st).
Proof. apply run_inv. Qed.

End RunProps.

(** C2: from one generation boundary to a later one, the global best's
    fitness and every personal best only grow, and the swarm keeps its
    size. *)
Theorem run_monotone {G : Type} `{!RandSource G} (P : params) (k k' : nat) (t : Z) (st : world G) :
  (k <= k')%nat -> progress (run P k t @@ st) (run P k' t @@ st).
Proof. intros Hk. replace k' with (k + (k' - k))%nat by lia. apply run_prog. Qed.

(** C3: in the configuration [main] sets (2000 particles on [-100, 100],
    100000 generations), whenever [malloc] succeeds and [size_t] has at
    least 17 bits, [main] prints a point of [-100, 100], its true fitness,
    and that fitness is at most [0.01] above the known optimum's. *)
Theorem main_best_near_known_optimum {G : Type} `{!RandSource G, !RandSourceLaws G}
    (env : run_env G) :
  malloc_ok env = true -> (17 <= size_t_bits env)%Z ->
  exists bp bf, main env = Printed (bp, bf) (known_x, fit known_x) /\
    -100 <= bp <= 100 /\ bf = fit bp /\ bf <= fit known_x + (1 # 100).
Proof.
  intros Hok Hb. unfold main.
  rewrite main_with_fits; [| done | lia |].
  2:{ assert (131072 <= 2 ^ size_t_bits env)%Z.
      { change 131072%Z with (2 ^ 17)%Z. apply Z.pow_le_mono_r; lia. }
      change (80000 < 2 ^ size_t_bits env)%Z. lia. }
  set (st := run default_params default_max_itera (now env) @@
               start_world (particle_cnt default_params) env).
  assert (Hinv : swarm_inv default_params st).
  { apply run_inv; [by_compute | cbn; lia | apply repeat_length]. }
  destruct (swarm_inv_gbest default_params st Hinv) as [Hfit Hin].
  exists (position (gbest st)), (fitness (gbest st)).
  split_and!; [reflexivity | apply Hin | apply Hin | done |].
  rewrite Hfit. pose proof (fit_upper (position (gbest st)) Hin). pose proof fit_known_x. lra.
Qed.

(** C14: the spec's scenario "with [c1 = c2 = 0] and [w = 0] the particle
    stays at its initial position forever": after [ParticleInit], no
    generation moves any particle. *)
Theorem run_at_rest {G : Type} `{!RandSource G, !RandSourceLaws G}
    (P : params) (k : nat) (t : Z) (st : world G) :
  w P == 0 -> c1 P == 0 -> c2 P == 0 -> params_wf P ->
  (0 < particle_cnt P)%nat -> length (swarm st) = particle_cnt P ->
  positions_kept (run P 0 t @@ st) (run P k t @@ st).
Proof.
  intros Hw Hc1 Hc2 HP Hn Hl. rewrite !run_exec.
  apply generations_keep_positions; try done. by apply ParticleInit_inv.
Qed.

(** In the same scenario the velocity collapses: after at least one
    generation every particle's velocity is [0]. *)
Lemma run_at_rest_velocity {G : Type} `{!RandSource G, !RandSourceLaws G}
    (P : params) (k : nat) (t : Z) (st : world G) :
  w P == 0 -> c1 P == 0 -> c2 P == 0 -> params_wf P ->
  (0 < particle_cnt P)%nat -> length (swarm st) = particle_cnt P -> (1 <= k)%nat ->
  forall i p, swarm (run P k t @@ st) !! i = Some p -> velocity p == 0.
Proof.
  intros Hw Hc1 Hc2 HP Hn Hl Hk. rewrite run_exec. unfold for_loop.
  replace k with (k - 1 + 1)%nat by lia.
  rewrite for_from_add, for_from_S, for_from_0.
  apply ParticleMove_zero_velocity; try done.
  apply generations_inv; [done |]. by apply ParticleInit_inv.
Qed.

(** Every point [fit] is evaluated at during a run stays in the swarm until
    the next generation boundary (each particle is evaluated once by
    [ParticleInit] and once per generation), so the points evaluated up to
    generation [k] are the particles' points at the boundaries [0 .. k].
    C19 and C20 state that [gbest] at generation [k] is the best of them. *)

(** C19 (refinement): no point evaluated up to generation [k] has a
    fitness above that of [gbest] at generation [k]. *)
Theorem run_gbest_dominates_history {G : Type} `{!RandSource G, !RandSourceLaws G}
    (P : params) (k0 k : nat) (t : Z) (st : world G) :
  params_wf P -> (0 < particle_cnt P)%nat -> length (swarm st) = particle_cnt P ->
  (k0 <= k)%nat ->
  forall i p, swarm (run P k0 t @@ st) !! i = Some p ->
  fitness p <= fitness (gbest (run P k t @@ st)).
Proof.
  intros HP Hn Hl Hk i p Hp.
  pose proof (run_inv P k0 t st HP Hn Hl) as Hinv.
  pose proof (wf_fitness_le P p (inv_particles P _ Hinv i p Hp)).
  pose proof (inv_gbest_upper P _ Hinv i p Hp).
  replace k with (k0 + (k - k0))%nat by lia.
  pose proof (prog_gbest _ _ (run_prog P k0 (k - k0) t st)). lra.
Qed.

(** C20 (refinement): [gbest] at generation [k] is a point that was
    evaluated: some particle sat at its position, with its fitness, at a
    generation boundary [k0 <= k]. *)
Theorem run_gbest_from_history {G : Type} `{!RandSource G, !RandSourceLaws G}
    (P : params) (k : nat) (t : Z) (st : world G) :
  params_wf P -> (0 < particle_cnt P)%nat -> length (swarm st) = particle_cnt P ->
  exists k0 i p0, (k0 <= k)%nat /\ swarm (run P k0 t @@ st) !! i = Some p0 /\
    position p0 = position (gbest (run P k t @@ st)) /\
    fitness p0 = fitness (gbest (run P k t @@ st)).
Proof.
  intros HP Hn Hl.
  destruct (inv_gbest_attained P _ (run_inv P k t st HP Hn Hl)) as (i & q & Hq & Hpos & Hfit).
  destruct (run_pbest_history P k t st HP Hn Hl i q Hq) as (k0 & p0 & Hk0 & Hp0 & Hpos0 & Hfit0).
  exists k0, i, p0. split_and!; [done | done | congruence | congruence].
Qed.

(** When [malloc] returns NULL for a nonempty swarm, [main] reaches
    [ParticleInit]'s write through NULL: the code never checks the result
    of [AllocateParticle]. *)
Lemma main_null_deref {G : Type} `{!RandSource G} (P : params) (n : nat) (env : run_env G) :
  malloc_ok env = false -> (0 < particle_cnt P)%nat -> main_with P n env = UB_null_deref.
Proof.
  intros Hok Hn. unfold main_with, AllocateParticle. rewrite Hok.
  by destruct (Nat.ltb_spec 0 (particle_cnt P)); [| lia].
Qed.

(** C11 (bounds): when [sizeof(particle) * particle_cnt] does not fit in
    [size_t], the product wraps, [malloc] returns a block too small for
    the swarm and [ParticleInit] writes past it. *)
Theorem main_size_wraps {G : Type} `{!RandSource G} (P : params) (n : nat) (env : run_env G) :
  malloc_ok env = true -> (0 <= size_t_bits env)%Z ->
  (2 ^ size_t_bits env <= sizeof_particle * Z.of_nat (particle_cnt P))%Z ->
  main_with P n env = UB_write_past_block.
Proof.
  intros Hok Hb Hwrap. unfold main_with. rewrite Hok.
  destruct (AllocateParticle_short _ _ Hb Hwrap) as (c & -> & Hc).
  by destruct (Nat.ltb_spec c (particle_cnt P)); [| lia].
Qed.

(** C12: with [particle_cnt = 0] no particle is ever initialised, and
    [main] prints the zero-initialised [gbest], the pair [(0, 0)], which
    is not a point of the objective: [fit 0] is [8000]. *)
Theorem main_empty_swarm {G : Type} `{!RandSource G} (P : params) (n : nat) (env : run_env G) :
  particle_cnt P = 0%nat ->
  main_with P n env = Printed (0, 0) (known_x, fit known_x) /\ ~ (fit 0 == 0).
Proof.
  intros H0. split; [| vm_compute; discriminate].
  unfold main_with, AllocateParticle, ParticleDisplay. rewrite H0.
  destruct (malloc_ok env); cbn -[run exec]; rewrite (run_empty P n (now env) _ H0); reflexivity.
Qed.

(** C13: the spec's scenario "one particle, [w = 1], [c1 = c2 = 0]: the
    global best's fitness equals the particle's fitness at every step"
    does not hold: after one generation the particle has moved to a worse
    point while [gbest] keeps the best one seen, which is the particle's
    personal best. *)
Theorem one_particle_gbest_not_current :
  let st := run one_particle_params 1 0 @@ start_world 1 (replay_env one_particle_draws) in
  exists p, swarm st = [p] /\ ~ (fitness (gbest st) == fitness p) /\
    fitness (gbest st) == pbest_fit p.
Proof.
  cbv zeta. eexists. split; [vm_compute; reflexivity |].
  split; [vm_compute; discriminate | vm_compute; reflexivity].
Qed.

(** ** Witnesses *)

Lemma run_preserves_inv_witness :
  params_wf small_params /\ (0 < particle_cnt small_params)%nat /\
  length (swarm (start_world 3 (replay_env small_draws))) = particle_cnt small_params /\
  swarm_inv small_params (run small_params 2 0 @@ start_world 3 (replay_env small_draws)).
Proof.
  split_and!; [by_compute | cbn; lia | reflexivity |].
  apply run_preserves_inv; [by_compute | cbn; lia | reflexivity].
Defined.

Lemma run_monotone_witness :
  (1 <= 2)%nat /\
  progress (run small_params 1 0 @@ start_world 3 (replay_env small_draws))
           (run small_params 2 0 @@ start_world 3 (replay_env small_draws)).
Proof. split; [lia | apply run_monotone; lia]. Defined.

Lemma main_best_near_known_optimum_witness :
  malloc_ok (replay_env small_draws) = true /\ (17 <= size_t_bits (replay_env small_draws))%Z /\
  exists bp bf, main (replay_env small_draws) = Printed (bp, bf) (known_x, fit known_x) /\
    -100 <= bp <= 100 /\ bf = fit bp /\ bf <= fit known_x + (1 # 100).
Proof.
  split_and!; [reflexivity | cbn; lia |].
  apply main_best_near_known_optimum; [reflexivity | cbn; lia].
Defined.

(** An 8-bit [size_t] cannot hold [40 * 7 = 280]: the block has room for
    no particle. *)
Lemma main_size_wraps_witness :
  malloc_ok (mkEnv 0%Z true 8%Z zero_particle (Replay.mkState [])) = true /\
  (2 ^ 8 <= sizeof_particle * Z.of_nat 7)%Z /\
  main_with (mkParams 1 2 2 200 100 (-100) 7) 1 (mkEnv 0%Z true 8%Z zero_particle (Replay.mkState [])) =
  UB_write_past_block.
Proof.
  split_and!; [reflexivity | vm_compute; discriminate |].
  apply main_size_wraps; [reflexivity | cbn; lia | vm_compute; discriminate].
Defined.

Lemma main_empty_swarm_witness :
  particle_cnt (mkParams 1 2 2 200 100 (-100) 0) = 0%nat /\
  main_with (mkParams 1 2 2 200 100 (-100) 0) 5 (replay_env []) = Printed (0, 0) (known_x, fit known_x) /\
  ~ (fit 0 == 0).
Proof.
  split; [reflexivity |].
  apply main_empty_swarm. reflexivity.
Defined.

Lemma run_at_rest_witness :
  let P := mkParams 0 0 0 200 100 (-100) 3 in
  (w P == 0 /\ c1 P == 0 /\ c2 P == 0 /\ params_wf P /\ (0 < particle_cnt P)%nat /\
   length (swarm (start_world 3 (replay_env small_draws))) = particle_cnt P) /\
  positions_kept (run P 0 0 @@ start_world 3 (replay_env small_draws))
                 (run P 4 0 @@ start_world 3 (replay_env small_draws)).
Proof.
  cbv zeta. split; [split_and!; [by_compute .. | cbn; lia | reflexivity] |].
  apply run_at_rest; [by_compute .. | cbn; lia | reflexivity].
Defined.

Lemma run_gbest_dominates_history_witness :
  (params_wf small_params /\ (0 < particle_cnt small_params)%nat /\
   length (swarm (start_world 3 (replay_env small_draws))) = particle_cnt small_params /\
   (1 <= 2)%nat) /\
  forall i p, swarm (run small_params 1 0 @@ start_world 3 (replay_env small_draws)) !! i = Some p ->
  fitness p <= fitness (gbest (run small_params 2 0 @@ start_world 3 (replay_env small_draws))).
Proof.
  split; [split_and!; [by_compute | cbn; lia | reflexivity | lia] |].
  apply run_gbest_dominates_history; [by_compute | cbn; lia | reflexivity | lia].
Defined.

Lemma run_gbest_from_history_witness :
  (params_wf small_params /\ (0 < particle_cnt small_params)%nat /\
   length (swarm (start_world 3 (replay_env small_draws))) = particle_cnt small_params) /\
  exists k0 i p0, (k0 <= 2)%nat /\
    swarm (run small_params k0 0 @@ start_world 3 (replay_env small_draws)) !! i = Some p0 /\
    position p0 = position (gbest (run small_params 2 0 @@ start_world 3 (replay_env small_draws))) /\
    fitness p0 = fitness (gbest (run small_params 2 0 @@ start_world 3 (replay_env small_draws))).
Proof.
  split; [split_and!; [by_compute | cbn; lia | reflexivity] |].
  apply run_gbest_from_history; [by_compute | cbn; lia | reflexivity].
Defined.
