(* ===== verification/Draws.v ===== *)
(** * The calls of [rand()] in a run

    Every [RND()] of [src/pso_linReg.c] advances the process-wide generator
    once.  [ParticleInit] calls it twice per particle (lines 137 and 140)
    after [srand((unsigned)time(NULL))] (line 132), and [ParticleMove] calls
    it twice per particle (line 164), so a run of [k] generations calls it
    [run_draws P k = 2 * particle_cnt * (k + 1)] times, whatever the draws
    are ([run_rng]), on a block of at least [particle_cnt] records (the
    only blocks [main] runs on). *)

From Stdlib Require Import QArith ZArith Lia.
From stdpp Require Import base list.
From S2P Require Import Prelude Random Particle Move Init Driver.

(** The number of [RND()] calls of [ParticleInit] followed by [k] calls of
    [ParticleMove]. *)
Definition run_draws (P : params) (k : nat) : nat := 2 * particle_cnt P * S k.

Section Draws.
Context {G : Type} `{!RandSource G}.

Lemma rng_raise_gbest (p : particle) (st : world G) : rng (raise_gbest p st) = rng st.
Proof. unfold raise_gbest. by destruct (Qltb _ _). Qed.

(** A loop whose every iteration makes [d] draws and keeps [Q] makes
    [n * d] draws. *)
Lemma for_from_draws (body : nat -> St (world G) unit) (Q : world G -> Prop) (d i n : nat)
    (st : world G) :
  (forall j w, (i <= j < i + n)%nat -> Q w ->
     Q (body j @@ w) /\ rng (body j @@ w) = rng_after d (rng w)) ->
  Q st -> Q (for_from i n body @@ st) /\ rng (for_from i n body @@ st) = rng_after (n * d) (rng st).
Proof.
  revert i st. induction n as [|n IH]; intros i st Hb Hq; [done |].
  rewrite for_from_S.
  assert (Hi : Q (body i @@ st) /\ rng (body i @@ st) = rng_after d (rng st))
    by (apply Hb; [lia | done]).
  destruct Hi as [Hq' Hr].
  assert (Hb' : forall j w, (S i <= j < S i + n)%nat -> Q w ->
            Q (body j @@ w) /\ rng (body j @@ w) = rng_after d (rng w))
    by (intros; apply Hb; [lia | done]).
  destruct (IH (S i) (body i @@ st) Hb' Hq') as [Hq'' Hr''].
  split; [done |]. by rewrite Hr'', Hr, <- rng_after_add.
Qed.

(** Iteration [i] of [ParticleMove] on a particle of the swarm: two draws. *)
Lemma ParticleMove_body_draws (P : params) (gpos : Q) (i : nat) (st : world G) :
  (i < length (swarm st))%nat ->
  length (swarm (ParticleMove_body P gpos i @@ st)) = length (swarm st) /\
  rng (ParticleMove_body P gpos i @@ st) = rng_after 2 (rng st).
Proof.
  intros Hi. rewrite ParticleMove_body_exec.
  destruct (lookup_lt_is_Some_2 _ _ Hi) as [p ->]. cbn zeta.
  rewrite swarm_raise_gbest, rng_raise_gbest. cbn. by rewrite length_insert.
Qed.

Lemma ParticleMove_draws (P : params) (st : world G) :
  (particle_cnt P <= length (swarm st))%nat ->
  rng (ParticleMove P @@ st) = rng_after (particle_cnt P * 2) (rng st).
Proof.
  intros Hn. rewrite ParticleMove_exec. unfold for_loop.
  apply (for_from_draws _ (fun w => length (swarm w) = length (swarm st))); [| done].
  intros j w Hj Hw. rewrite <- Hw. apply ParticleMove_body_draws. lia.
Qed.

(** Iteration [i] of [ParticleInit]: two draws, in range or not. *)
Lemma ParticleInit_body_draws (P : params) (pr : Q) (i : nat) (st : world G) :
  rng (ParticleInit_body P pr i @@ st) = rng_after 2 (rng st).
Proof. rewrite ParticleInit_body_exec. cbn zeta. by destruct (_ || _). Qed.

Lemma ParticleInit_draws (P : params) (now : Z) (st : world G) :
  rng (ParticleInit P now @@ st) =
  rng_after (particle_cnt P * 2) (srand (now mod 2 ^ 32)%Z (rng st)).
Proof.
  unfold ParticleInit, for_loop. rewrite exec_bind.
  apply (for_from_draws _ (fun _ => True)); [| done].
  intros j w _ _. split; [done | apply ParticleInit_body_draws].
Qed.

(** A run of [k] generations makes [run_draws P k] draws after seeding. *)
Lemma run_rng (P : params) (k : nat) (t : Z) (st : world G) :
  (particle_cnt P <= length (swarm st))%nat ->
  rng (run P k t @@ st) = rng_after (run_draws P k) (srand (t mod 2 ^ 32)%Z (rng st)).
Proof.
  intros Hn. rewrite run_exec. unfold for_loop.
  destruct (for_from_draws (fun _ => ParticleMove P)
              (fun w => (particle_cnt P <= length (swarm w))%nat) (particle_cnt P * 2) 0 k
              (ParticleInit P t @@ st)) as [_ ->].
  - intros j w _ Hw. by rewrite ParticleMove_length, ParticleMove_draws.
  - by rewrite ParticleInit_length.
  - rewrite ParticleInit_draws, <- rng_after_add. f_equal. unfold run_draws. lia.
Qed.
End Draws.

(** ** Properties *)

(** C15: a run of [k] generations calls [rand()] exactly
    [2 * particle_cnt * (k + 1)] times after [srand]: the generator it
    leaves is the seeded one advanced by that many calls, for any
    generator. *)
Theorem run_draw_count {G : Type} `{!RandSource G} (P : params) (k : nat) (t : Z) (st : world G) :
  (particle_cnt P <= length (swarm st))%nat ->
  rng (run P k t @@ st) = rng_after (run_draws P k) (srand (t mod 2 ^ 32)%Z (rng st)).
Proof. apply run_rng. Qed.

(** ** Witnesses *)

Lemma run_draw_count_witness :
  (particle_cnt demo_params <= length (swarm demo_world))%nat /\
  rng (run demo_params 3 7 @@ demo_world) =
    rng_after (run_draws demo_params 3) (srand (7 mod 2 ^ 32)%Z (rng demo_world)).
Proof. split; [cbn; lia | apply run_draw_count; cbn; lia]. Defined.
