(* ===== verification/Program.v ===== *)
(** * [main] statement by statement, over the heap (lines 94-118, 123-126,
    189-192 of [src/pso_linReg.c])

    [Driver.main_with] gives the outcome of [main] in one piece.  Here
    [main] is a machine: [ctl] says which statement of lines 108-117 runs
    next, the state holds the heap (a [gmap] from locations to the blocks
    [malloc] returned), the pointer [p], the globals [gbest] and the
    generator, and the lines printed so far.  [step] runs one statement:
    the allocation takes a fresh location, [ParticleInit] and each
    [ParticleMove] read the block behind [p] and write it back,
    [ParticleDisplay] and the last [printf] append a line, and
    [ParticleRelease] frees the block.  A statement that dereferences NULL
    or writes past the block stops the machine with the fault.

    The theorems: the machine stops after [max_itera + 7] steps and its
    outcome is [main_with]'s (a refinement: the two descriptions of [main]
    agree on every input); every state a run reaches keeps the heap as it
    was apart from the one block, which [ParticleRelease] frees exactly
    once, so a run that exits leaves the heap it started with; the only
    faults a run can reach are the two the driver names; the rank of the
    state decreases at every step; every reachable state is well formed
    ([frame_ok]); and once [ParticleInit] has returned, [main] reaches its
    return. *)

From Stdlib Require Import QArith Qabs Lqa ZArith.
From stdpp Require Import base list gmap relations.
From S2P Require Import Prelude Fitness Random Particle Move Init Driver.

Open Scope Q_scope.

(** Heap locations. *)
Abbreviation loc := positive.

(** The value of [particle* p] in [main] (line 99). *)
Inductive ptr :=
| Null
| Ptr (l : loc).

(** The heap: every live block with the records it holds. *)
Abbreviation heap := (gmap loc (list particle)).

(** The lines [main] prints: [best : ...] (line 203) and [know2: ...]
    (line 116), with the values they format. *)
Inductive event :=
| Print_best (line : Q * Q)
| Print_known (line : Q * Q).

(** The statement of [main] that runs next (lines 108-117); [At_move i]
    is the test of the [for] loop of line 110 with the counter at [i]. *)
Inductive ctl :=
| At_alloc
| At_init
| At_move (i : nat)
| At_display
| At_release
| At_known
| At_exit.

(** Why a statement cannot run: undefined behaviour. *)
Inductive fault :=
| Null_deref
| Write_past_block
| Use_after_free
| Invalid_free.

(** The state of the process: [main]'s position and pointer, the heap, the
    globals [gbest] and the generator, and what has been printed. *)
Record mstate (G : Type) := MState {
  m_ctl : ctl;
  m_heap : heap;
  m_p : ptr;
  m_gbest : particle;
  m_rng : G;
  m_out : list event
}.
Arguments MState {G}.
Arguments m_ctl {G}.
Arguments m_heap {G}.
Arguments m_p {G}.
Arguments m_gbest {G}.
Arguments m_rng {G}.
Arguments m_out {G}.

(** What one statement does. *)
Inductive step_result (G : Type) :=
| Next (s : mstate G)
| Halted
| Fault (f : fault).
Arguments Next {G}.
Arguments Halted {G}.
Arguments Fault {G}.

(** [malloc] of a block: it goes to a location no live block uses. *)
Definition malloc_block (h : heap) (blk : list particle) : loc * heap :=
  let l := fresh (dom h) in (l, <[l := blk]> h).

(** [void ParticleRelease(particle* p)]: [free(p)].  [free(NULL)] does
    nothing; freeing what is not a live block is undefined. *)
Definition ParticleRelease (p : ptr) (h : heap) : option heap :=
  match p with
  | Null => Some h
  | Ptr l => match h !! l with Some _ => Some (delete l h) | None => None end
  end.

(** The records [p[0] .. p[cnt-1]] that [ParticleInit] and [ParticleMove]
    access through [p]. *)
Definition deref (cnt : nat) (h : heap) (p : ptr) : fault + list particle :=
  match p with
  | Null => if (0 <? cnt)%nat then inl Null_deref else inr []
  | Ptr l =>
      match h !! l with
      | None => inl Use_after_free
      | Some b => if (length b <? cnt)%nat then inl Write_past_block else inr b
      end
  end.

(** The block written back after a call. *)
Definition store (h : heap) (p : ptr) (b : list particle) : heap :=
  match p with
  | Null => h
  | Ptr l => <[l := b]> h
  end.

Section Machine.
Context {G : Type} `{!RandSource G}.
Context (P : params) (max_itera : nat) (env : run_env G).

(** A call [f(p)] of [ParticleInit] or [ParticleMove], then [next]. *)
Definition call (f : St (world G) unit) (next : ctl) (s : mstate G) : step_result G :=
  match deref (particle_cnt P) (m_heap s) (m_p s) with
  | inl e => Fault e
  | inr b =>
      let w := f @@ mkWorld b (m_gbest s) (m_rng s) in
      Next (MState next (store (m_heap s) (m_p s) (swarm w)) (m_p s) (gbest w) (rng w) (m_out s))
  end.

(** One statement of lines 108-117. *)
Definition step (s : mstate G) : step_result G :=
  match m_ctl s with
  | At_alloc =>
      match AllocateParticle (size_t_bits env) (malloc_ok env) (particle_cnt P) with
      | Alloc_null => Next (MState At_init (m_heap s) Null (m_gbest s) (m_rng s) (m_out s))
      | Alloc_block c =>
          let '(l, h) := malloc_block (m_heap s) (repeat (junk env) c) in
          Next (MState At_init h (Ptr l) (m_gbest s) (m_rng s) (m_out s))
      end
  | At_init => call (ParticleInit P (now env)) (At_move 0) s
  | At_move i =>
      if (i <? max_itera)%nat then call (ParticleMove P) (At_move (S i)) s
      else Next (MState At_display (m_heap s) (m_p s) (m_gbest s) (m_rng s) (m_out s))
  | At_display =>
      let line := ParticleDisplay (mkWorld [] (m_gbest s) (m_rng s)) in
      Next (MState At_release (m_heap s) (m_p s) (m_gbest s) (m_rng s) (m_out s ++ [Print_best line]))
  | At_release =>
      match ParticleRelease (m_p s) (m_heap s) with
      | Some h => Next (MState At_known h (m_p s) (m_gbest s) (m_rng s) (m_out s))
      | None => Fault Invalid_free
      end
  | At_known =>
      Next (MState At_exit (m_heap s) (m_p s) (m_gbest s) (m_rng s)
              (m_out s ++ [Print_known (known_x, fit known_x)]))
  | At_exit => Halted
  end.

(** The step relation. *)
Definition mstep (s s' : mstate G) : Prop := step s = Next s'.

(** The process entering [main] with the heap [h0]: [gbest] is
    zero-initialised, [p] not yet set. *)
Definition start (h0 : heap) : mstate G :=
  MState At_alloc h0 Null zero_particle (rng0 env) [].

(** The machine run for at most [fuel] statements: [None] when it has not
    stopped, otherwise the fault or the final state. *)
Fixpoint run_machine (fuel : nat) (s : mstate G) : option (fault + mstate G) :=
  match fuel with
  | O => None
  | S n =>
      match step s with
      | Next s' => run_machine n s'
      | Halted => Some (inr s)
      | Fault f => Some (inl f)
      end
  end.
End Machine.

(** What a stopped run shows: the fault, or the two printed lines. *)
Definition observe {G : Type} (r : fault + mstate G) : option outcome :=
  match r with
  | inl Null_deref => Some UB_null_deref
  | inl Write_past_block => Some UB_write_past_block
  | inl _ => None
  | inr s =>
      match m_out s with
      | [Print_best b; Print_known k] => Some (Printed b k)
      | _ => None
      end
  end.

(** The number of statements left before [main] returns. *)
Definition rank (max_itera : nat) (c : ctl) : nat :=
  match c with
  | At_alloc => max_itera + 6
  | At_init => max_itera + 5
  | At_move i => (max_itera - i) + 4
  | At_display => 3
  | At_release => 2
  | At_known => 1
  | At_exit => 0
  end.

(** A heap that already holds a block, for the concrete runs. *)
Definition demo_heap : heap := {[1%positive := []]}.

(** ** The heap *)

(** Between the allocation and the release the heap is [h0] with the block
    behind [p] added at a location [h0] does not use ([p] NULL: [h0]). *)
Definition heap_with (h0 : heap) (p : ptr) (h : heap) : Prop :=
  match p with
  | Null => h = h0
  | Ptr l => h0 !! l = None /\ exists b, h = <[l := b]> h0
  end.

(** The statements during which the block is allocated. *)
Definition block_live (c : ctl) : bool :=
  match c with
  | At_init | At_move _ | At_display | At_release => true
  | At_alloc | At_known | At_exit => false
  end.

(** The heap invariant of a run of [main] from the heap [h0]. *)
Definition heap_inv {G : Type} (h0 : heap) (s : mstate G) : Prop :=
  if block_live (m_ctl s) then heap_with h0 (m_p s) (m_heap s) else m_heap s = h0.

(** The statements that run after a successful [ParticleInit]. *)
Definition post_init (c : ctl) : bool :=
  match c with
  | At_alloc | At_init => false
  | _ => true
  end.

(** A well-formed state of [main]: the loop counter never passes
    [max_itera], and once [ParticleInit] has run, while the block is
    allocated, it holds the [cnt] records the calls access. *)
Definition frame_ok {G : Type} (cnt max_itera : nat) (s : mstate G) : Prop :=
  (forall i, m_ctl s = At_move i -> (i <= max_itera)%nat) /\
  (post_init (m_ctl s) = true -> block_live (m_ctl s) = true ->
   exists b, deref cnt (m_heap s) (m_p s) = inr b).

Lemma malloc_block_spec (h : heap) (b : list particle) :
  h !! (malloc_block h b).1 = None /\ (malloc_block h b).2 = <[(malloc_block h b).1 := b]> h.
Proof. split; [apply not_elem_of_dom, is_fresh | done]. Qed.

Lemma ParticleRelease_insert (h : heap) (l : loc) (b : list particle) :
  h !! l = None -> ParticleRelease (Ptr l) (<[l := b]> h) = Some h.
Proof. intros Hl. cbn [ParticleRelease]. rewrite lookup_insert_eq. by rewrite delete_insert_id. Qed.

Lemma heap_with_store (h0 h : heap) (p : ptr) (b : list particle) :
  heap_with h0 p h -> heap_with h0 p (store h p b).
Proof.
  destruct p as [|l]; cbn [deref heap_with store ParticleRelease]; [done |].
  intros [Hl [b0 ->]]. split; [done |]. exists b. by rewrite insert_insert_eq.
Qed.

Lemma heap_with_release (h0 h : heap) (p : ptr) :
  heap_with h0 p h -> ParticleRelease p h = Some h0.
Proof. destruct p as [|l]; cbn [deref heap_with store ParticleRelease]; [by intros -> | intros [Hl [b ->]]]. by apply ParticleRelease_insert. Qed.

Lemma heap_with_deref (h0 h : heap) (p : ptr) (cnt : nat) :
  heap_with h0 p h -> deref cnt h p <> inl Use_after_free.
Proof.
  destruct p as [|l]; cbn [deref heap_with store ParticleRelease]; [intros _; destruct (0 <? cnt)%nat; congruence |].
  intros [_ [b ->]]. rewrite lookup_insert_eq. destruct (length b <? cnt)%nat; congruence.
Qed.

Lemma deref_store (cnt : nat) (h : heap) (p : ptr) (b b' : list particle) :
  deref cnt h p = inr b -> length b' = length b -> deref cnt (store h p b') p = inr b'.
Proof.
  destruct p as [|l]; cbn [deref store].
  - destruct (0 <? cnt)%nat; [intros [=] |]. intros [= <-] Hl.
    by apply nil_length_inv in Hl as ->.
  - destruct (h !! l) as [b0|]; [| intros [=]].
    destruct (length b0 <? cnt)%nat eqn:E; [intros [=] |]. intros [= <-] Hl.
    by rewrite lookup_insert_eq, Hl, E.
Qed.

Lemma store_deref (cnt : nat) (h : heap) (p : ptr) (b : list particle) :
  deref cnt h p = inr b -> store h p b = h.
Proof.
  destruct p as [|l]; cbn [deref heap_with store ParticleRelease]; [done |].
  destruct (h !! l) as [b0|] eqn:Hl; [| done]. destruct (_ <? _)%nat; [done |].
  intros [= <-]. by apply insert_id.
Qed.

Lemma store_store (h : heap) (p : ptr) (b b' : list particle) :
  store (store h p b) p b' = store h p b'.
Proof. destruct p; cbn [store]; [done |]. by rewrite insert_insert_eq. Qed.

Lemma deref_release (cnt : nat) (h : heap) (p : ptr) (b : list particle) :
  deref cnt h p = inr b -> exists h', ParticleRelease p h = Some h'.
Proof.
  destruct p as [|l]; cbn [deref heap_with store ParticleRelease]; [eauto |]. destruct (h !! l); [eauto | done].
Qed.

Lemma deref_faults (cnt : nat) (h : heap) (p : ptr) (f : fault) :
  deref cnt h p = inl f -> f = Null_deref \/ f = Write_past_block \/ f = Use_after_free.
Proof.
  destruct p as [|l]; cbn [deref]; [destruct (0 <? cnt)%nat; intros [= <-]; auto |].
  destruct (h !! l); [destruct (_ <? _)%nat |]; intros [= <-]; auto.
Qed.

(** ** The machine *)

Section MachineFacts.
Context {G : Type} `{!RandSource G}.
Context (P : params) (max_itera : nat) (env : run_env G).

Lemma run_machine_next (n : nat) (s s' : mstate G) :
  step P max_itera env s = Next s' ->
  run_machine P max_itera env (S n) s = run_machine P max_itera env n s'.
Proof. intros E. cbn [run_machine]. by rewrite E. Qed.

Lemma call_shape (f : St (world G) unit) (next : ctl) (s s' : mstate G) :
  call P f next s = Next s' ->
  m_ctl s' = next /\ m_p s' = m_p s /\ exists b, m_heap s' = store (m_heap s) (m_p s) b.
Proof. unfold call. destruct (deref _ _ _); [done |]. intros [= <-]. cbn. eauto. Qed.

Lemma call_fault (f : St (world G) unit) (next : ctl) (s : mstate G) (e : fault) :
  call P f next s = Fault e -> deref (particle_cnt P) (m_heap s) (m_p s) = inl e.
Proof. unfold call. destruct (deref _ _ _); congruence. Qed.

(** The call when the block is there: [f] runs on it with the globals. *)
Lemma call_ok (f : St (world G) unit) (next : ctl) (s : mstate G) (b : list particle) :
  deref (particle_cnt P) (m_heap s) (m_p s) = inr b ->
  call P f next s =
  let w := f @@ mkWorld b (m_gbest s) (m_rng s) in
  Next (MState next (store (m_heap s) (m_p s) (swarm w)) (m_p s) (gbest w) (rng w) (m_out s)).
Proof. intros E. unfold call. by rewrite E. Qed.

(** Every step keeps the heap invariant. *)
Lemma heap_inv_step (h0 : heap) (s s' : mstate G) :
  mstep P max_itera env s s' -> heap_inv h0 s -> heap_inv h0 s'.
Proof.
  unfold mstep, step, heap_inv. destruct s as [c h p gb g out]; cbn [m_ctl m_heap m_p].
  destruct c; cbn [block_live].
  - intros E ->. destruct (AllocateParticle _ _ _) as [|c].
    + by injection E as <-.
    + destruct (malloc_block_spec h0 (repeat (junk env) c)) as [Hf Hh].
      destruct (malloc_block h0 _) as [l h'] eqn:M. cbn in Hf, Hh. injection E as <-.
      cbn. split; [done |]. eauto.
  - intros E Hw. destruct (call_shape _ _ _ _ E) as (-> & -> & b & ->). cbn. by apply heap_with_store.
  - destruct (i <? max_itera)%nat.
    + intros E Hw. destruct (call_shape _ _ _ _ E) as (-> & -> & b & ->). cbn. by apply heap_with_store.
    + intros E Hw. by injection E as <-.
  - intros E Hw. by injection E as <-.
  - intros E Hw. rewrite (heap_with_release _ _ _ Hw) in E. by injection E as <-.
  - intros E Hw. by injection E as <-.
  - done.
Qed.

Lemma heap_inv_reachable (h0 : heap) (s : mstate G) :
  rtc (mstep P max_itera env) (start env h0) s -> heap_inv h0 s.
Proof. intros Hr. apply (rtc_preserved _ _ _ _ (heap_inv_step h0) Hr). reflexivity. Qed.

(** A state of the invariant faults only by a NULL dereference or a write
    past the block. *)
Lemma heap_inv_faults (h0 : heap) (s : mstate G) (f : fault) :
  heap_inv h0 s -> step P max_itera env s = Fault f -> f = Null_deref \/ f = Write_past_block.
Proof.
  unfold heap_inv, step. destruct s as [c h p gb g out]; cbn [m_ctl m_heap m_p].
  assert (Hcall : forall fn next, heap_with h0 p h ->
            call P fn next (MState c h p gb g out) = Fault f -> f = Null_deref \/ f = Write_past_block).
  { intros fn next Hw E. apply call_fault in E. cbn in E.
    destruct (deref_faults _ _ _ _ E) as [? | [? | ->]]; auto.
    exfalso. exact (heap_with_deref h0 _ _ _ Hw E). }
  destruct c; cbn [block_live]; intros Hw.
  - by destruct (AllocateParticle _ _ _); [| destruct (malloc_block _ _)].
  - by apply Hcall.
  - destruct (i <? max_itera)%nat; [by apply Hcall | done].
  - done.
  - by rewrite (heap_with_release _ _ _ Hw).
  - done.
  - done.
Qed.

(** The number of statements left decreases at every step. *)
Lemma rank_step (s s' : mstate G) :
  mstep P max_itera env s s' -> (rank max_itera (m_ctl s') < rank max_itera (m_ctl s))%nat.
Proof.
  unfold mstep, step. destruct s as [c h p gb g out]; cbn [m_ctl].
  destruct c; intros E.
  - destruct (AllocateParticle _ _ _); [| destruct (malloc_block _ _)]; injection E as <-; cbn; lia.
  - apply call_shape in E as (-> & _). cbn. lia.
  - destruct (i <? max_itera)%nat eqn:Hi.
    + apply call_shape in E as (-> & _). apply Nat.ltb_lt in Hi. cbn. lia.
    + injection E as <-. cbn. lia.
  - injection E as <-. cbn. lia.
  - destruct (ParticleRelease _ _); [| done]. injection E as <-. cbn. lia.
  - injection E as <-. cbn. lia.
  - done.
Qed.

(** [k] generations keep the size of the block. *)
Lemma generations_length (i k : nat) (w : world G) :
  length (swarm (for_from i k (fun _ => ParticleMove P) @@ w)) = length (swarm w).
Proof.
  apply (for_from_inv _ (fun w' => length (swarm w') = length (swarm w))); [| done].
  intros j w' _ Hw. by rewrite ParticleMove_length.
Qed.

(** The loop of lines 110-111 from [i], [n] iterations before its end:
    [n] calls of [ParticleMove] on the block, then the exit test. *)
Lemma run_moves (n i fuel : nat) (s : mstate G) (w : world G) :
  (i + n)%nat = max_itera -> m_ctl s = At_move i ->
  deref (particle_cnt P) (m_heap s) (m_p s) = inr (swarm w) ->
  m_gbest s = gbest w -> m_rng s = rng w ->
  run_machine P max_itera env (n + S fuel) s =
  let w' := for_from i n (fun _ => ParticleMove P) @@ w in
  run_machine P max_itera env fuel
    (MState At_display (store (m_heap s) (m_p s) (swarm w')) (m_p s) (gbest w') (rng w') (m_out s)).
Proof.
  revert i s w. induction n as [|n IH]; intros i s w Hi Hc Hd Hg Hr; cbn zeta.
  - rewrite Nat.add_0_r in Hi. subst i. cbn [Nat.add].
    rewrite (run_machine_next _ _ (MState At_display (m_heap s) (m_p s) (m_gbest s) (m_rng s) (m_out s))).
    + by rewrite for_from_0, (store_deref _ _ _ _ Hd), Hg, Hr.
    + unfold step. by rewrite Hc, Nat.ltb_irrefl.
  - cbn [Nat.add]. destruct s as [c h p gb g out]; cbn in Hc, Hd, Hg, Hr. subst c gb g.
    destruct w as [b gbw gw]; cbn in Hd.
    set (w1 := ParticleMove P @@ mkWorld b gbw gw).
    rewrite (run_machine_next _ _ (MState (At_move (S i)) (store h p (swarm w1)) p (gbest w1) (rng w1) out)).
    + rewrite (IH (S i) _ w1); [| lia | done | | done | done].
      * cbn [m_heap m_p m_out]. rewrite store_store, for_from_S. reflexivity.
      * cbn [m_heap m_p]. apply (deref_store _ _ _ _ _ Hd). apply ParticleMove_length.
    + unfold step. cbn [m_ctl]. replace (i <? max_itera)%nat with true by (symmetry; apply Nat.ltb_lt; lia).
      by rewrite (call_ok _ _ (MState (At_move i) h p gbw gw out) _ Hd).
Qed.

(** From the call of [ParticleInit] on the block [b] to the return of
    [main]: [max_itera + 6] statements, and the two lines [main_with]
    prints for the same start. *)
Lemma run_from_init (s : mstate G) (b : list particle) :
  m_ctl s = At_init -> m_out s = [] ->
  deref (particle_cnt P) (m_heap s) (m_p s) = inr b ->
  exists r, run_machine P max_itera env (max_itera + 6) s = Some r /\
    observe r = Some (Printed (ParticleDisplay (run P max_itera (now env) @@ mkWorld b (m_gbest s) (m_rng s)))
                              (known_x, fit known_x)).
Proof.
  intros Hc Ho Hd. rewrite run_exec.
  remember (ParticleInit P (now env) @@ mkWorld b (m_gbest s) (m_rng s)) as w0 eqn:E0.
  replace (max_itera + 6)%nat with (S (max_itera + S 4)) by lia.
  rewrite (run_machine_next _ _ (MState (At_move 0) (store (m_heap s) (m_p s) (swarm w0)) (m_p s) (gbest w0) (rng w0) (m_out s))).
  2: { unfold step. rewrite Hc, (call_ok _ _ _ _ Hd). by subst w0. }
  assert (Hl0 : length (swarm w0) = length b) by (subst w0; apply ParticleInit_length).
  rewrite (run_moves max_itera 0 4 _ w0); [| done | done | | done | done].
  2: { apply (deref_store _ _ _ _ _ Hd Hl0). }
  cbn zeta. unfold for_loop.
  remember (for_from 0 max_itera (fun _ => ParticleMove P) @@ w0) as w' eqn:E'.
  assert (Hd' : deref (particle_cnt P) (store (store (m_heap s) (m_p s) (swarm w0)) (m_p s) (swarm w')) (m_p s)
                = inr (swarm w')).
  { rewrite store_store. apply (deref_store _ _ _ _ _ Hd). subst w'. by rewrite generations_length. }
  destruct (deref_release _ _ _ _ Hd') as [h' Hh'].
  cbn [m_heap m_p m_out]. rewrite Ho.
  eexists. split.
  - cbn [run_machine step m_ctl m_heap m_p]. rewrite Hh'. reflexivity.
  - reflexivity.
Qed.

(** The whole of [main]: [max_itera + 7] statements from the start. *)
Lemma run_machine_main_with (h0 : heap) :
  exists r, run_machine P max_itera env (max_itera + 7) (start env h0) = Some r /\
            observe r = Some (main_with P max_itera env).
Proof.
  unfold main_with. replace (max_itera + 7)%nat with (S (max_itera + 6)) by lia.
  destruct (AllocateParticle _ _ _) as [|c] eqn:A.
  - rewrite (run_machine_next _ _ (MState At_init h0 Null zero_particle (rng0 env) [])).
    2: { unfold step. cbn [start m_ctl]. by rewrite A. }
    destruct (0 <? particle_cnt P)%nat eqn:Hn.
    + exists (inl Null_deref). split; [| done].
      replace (max_itera + 6)%nat with (S (max_itera + 5)) by lia.
      cbn [run_machine step m_ctl]. unfold call. cbn [deref m_p]. by rewrite Hn.
    + apply (run_from_init (MState At_init h0 Null zero_particle (rng0 env) []) []); [done | done |]. cbn [deref m_p]. by rewrite Hn.
  - destruct (malloc_block_spec h0 (repeat (junk env) c)) as [Hf Hh].
    destruct (malloc_block h0 (repeat (junk env) c)) as [l h'] eqn:M. cbn in Hf, Hh. subst h'.
    rewrite (run_machine_next _ _ (MState At_init (<[l:=repeat (junk env) c]> h0) (Ptr l) zero_particle (rng0 env) [])).
    2: { unfold step. cbn [start m_ctl m_heap m_gbest m_rng m_out]. by rewrite A, M. }
    assert (Hd : deref (particle_cnt P) (<[l:=repeat (junk env) c]> h0) (Ptr l) =
                 if (c <? particle_cnt P)%nat then inl Write_past_block else inr (repeat (junk env) c)).
    { cbn [deref]. by rewrite lookup_insert_eq, repeat_length. }
    destruct (c <? particle_cnt P)%nat eqn:Hc.
    + exists (inl Write_past_block). split; [| done].
      replace (max_itera + 6)%nat with (S (max_itera + 5)) by lia.
      cbn [run_machine step m_ctl]. unfold call. cbn [m_heap m_p]. by rewrite Hd.
    + by apply (run_from_init (MState At_init (<[l:=repeat (junk env) c]> h0) (Ptr l) zero_particle (rng0 env) [])
                              (repeat (junk env) c)).
Qed.

(** Every step keeps [frame_ok]; the step out of [ParticleInit] establishes
    it, since the call succeeded. *)
Lemma frame_ok_step (s s' : mstate G) :
  mstep P max_itera env s s' -> frame_ok (particle_cnt P) max_itera s ->
  frame_ok (particle_cnt P) max_itera s'.
Proof.
  unfold mstep, step, frame_ok. destruct s as [c h p gb g out]; cbn [m_ctl m_heap m_p].
  assert (Hcall : forall fn next, (forall w, length (swarm (fn @@ w)) = length (swarm w)) ->
            call P fn next (MState c h p gb g out) = Next s' ->
            exists b, deref (particle_cnt P) (m_heap s') (m_p s') = inr b).
  { intros fn next Hl. unfold call. cbn [m_heap m_p m_gbest m_rng].
    destruct (deref _ h p) as [|b] eqn:Hd; [done |]. intros [= <-]. cbn.
    eexists. apply (deref_store _ _ _ _ _ Hd), Hl. }
  destruct c; intros E [Hi Hb].
  - destruct (AllocateParticle _ _ _); [| destruct (malloc_block _ _)]; injection E as <-;
      split; cbn; done.
  - pose proof (call_shape _ _ _ _ E) as (Hc & _).
    split; [rewrite Hc; intros ? [= <-]; lia |].
    intros _ _. apply (Hcall _ (At_move 0) (ParticleInit_length P (now env))), E.
  - destruct (i <? max_itera)%nat eqn:Hlt.
    + pose proof (call_shape _ _ _ _ E) as (Hc & _). apply Nat.ltb_lt in Hlt.
      split; [rewrite Hc; intros ? [= <-]; lia |].
      intros _ _. apply (Hcall _ (At_move (S i)) (ParticleMove_length P)), E.
    + injection E as <-. split; [done |]. intros _ _. by apply Hb.
  - injection E as <-. split; [done |]. intros _ _. by apply Hb.
  - destruct (ParticleRelease _ _); [| done]. injection E as <-. split; done.
  - injection E as <-. split; done.
  - done.
Qed.

Lemma frame_ok_reachable (h0 : heap) (s : mstate G) :
  rtc (mstep P max_itera env) (start env h0) s -> frame_ok (particle_cnt P) max_itera s.
Proof.
  intros Hr. apply (rtc_preserved _ _ _ _ frame_ok_step Hr). split; [done | done].
Qed.

(** After [ParticleInit], a well-formed state takes a step. *)
Lemma post_init_steps (s : mstate G) :
  frame_ok (particle_cnt P) max_itera s -> post_init (m_ctl s) = true ->
  m_ctl s = At_exit \/ exists s', mstep P max_itera env s s'.
Proof.
  unfold mstep, step, frame_ok. destruct s as [c h p gb g out]; cbn [m_ctl m_heap m_p].
  intros [_ Hb] Hc. destruct c; try done; [| eauto | | eauto | auto].
  - destruct (i <? max_itera)%nat; [| eauto].
    destruct (Hb eq_refl eq_refl) as [b Hd]. rewrite (call_ok _ _ (MState (At_move i) h p gb g out) _ Hd). eauto.
  - destruct (Hb eq_refl eq_refl) as [b Hd]. destruct (deref_release _ _ _ _ Hd) as [h' ->]. eauto.
Qed.

(** After [ParticleInit], the steps stay after it. *)
Lemma post_init_step (s s' : mstate G) :
  mstep P max_itera env s s' -> post_init (m_ctl s) = true -> post_init (m_ctl s') = true.
Proof.
  unfold mstep, step. destruct s as [c h p gb g out]; cbn [m_ctl].
  destruct c; try done; intros E _.
  - destruct (i <? max_itera)%nat; [apply call_shape in E as (-> & _) | injection E as <-]; done.
  - by injection E as <-.
  - destruct (ParticleRelease _ _); [by injection E as <- | done].
  - by injection E as <-.
Qed.

(** From a well-formed state after [ParticleInit], [main] reaches its
    return. *)
Lemma post_init_reaches_exit (s : mstate G) :
  frame_ok (particle_cnt P) max_itera s -> post_init (m_ctl s) = true ->
  exists s', rtc (mstep P max_itera env) s s' /\ m_ctl s' = At_exit.
Proof.
  induction s as [s IH] using (well_founded_induction
    (wf_projected (R1 := fun x y => mstep P max_itera env y x) lt (fun s => rank max_itera (m_ctl s))
       (fun x y H => rank_step y x H) lt_wf)).
  intros Hf Hp. destruct (post_init_steps s Hf Hp) as [Hx | [s' Hs]]; [by exists s |].
  destruct (IH s' Hs (frame_ok_step _ _ Hs Hf) (post_init_step _ _ Hs Hp)) as (s'' & Hr & Hx).
  exists s''. split; [by eapply rtc_l | done].
Qed.
End MachineFacts.

(** ** Properties of [main] as a machine *)

(** C25: for every input and every heap [main] starts with, the machine
    stops within [max_itera + 7] statements, and what it shows (the fault,
    or the two printed lines) is the outcome [main_with] gives: the
    statement-by-statement [main] over the heap refines the one-piece
    description. *)
Theorem main_machine_refines_main_with {G : Type} `{!RandSource G}
    (P : params) (max_itera : nat) (env : run_env G) (h0 : heap) :
  exists r, run_machine P max_itera env (max_itera + 7) (start env h0) = Some r /\
            observe r = Some (main_with P max_itera env).
Proof. apply run_machine_main_with. Qed.

(** C26: in every state a run of [main] reaches from the heap [h0], the
    heap is [h0] with at most the one block [AllocateParticle] made, at a
    location [h0] did not use, and only between the allocation and
    [ParticleRelease]. *)
Theorem main_heap_invariant {G : Type} `{!RandSource G}
    (P : params) (max_itera : nat) (env : run_env G) (h0 : heap) (s : mstate G) :
  rtc (mstep P max_itera env) (start env h0) s -> heap_inv h0 s.
Proof. apply heap_inv_reachable. Qed.

(** C27: the only undefined behaviour a run of [main] can reach is a NULL
    dereference (failed [malloc]) or a write past the block (wrapped
    allocation size): never a use after free nor an invalid [free]. *)
Theorem main_faults_classified {G : Type} `{!RandSource G}
    (P : params) (max_itera : nat) (env : run_env G) (h0 : heap) (s : mstate G) (f : fault) :
  rtc (mstep P max_itera env) (start env h0) s -> step P max_itera env s = Fault f ->
  f = Null_deref \/ f = Write_past_block.
Proof. intros Hr. apply (heap_inv_faults P max_itera env h0). exact (heap_inv_reachable P max_itera env h0 s Hr). Qed.

(** C29: [main] terminates: there is no infinite chain of statements, for
    any parameters and any input. *)
Theorem main_machine_terminates {G : Type} `{!RandSource G}
    (P : params) (max_itera : nat) (env : run_env G) :
  well_founded (fun s' s => mstep P max_itera env s s').
Proof.
  apply (wf_projected lt (fun s => rank max_itera (m_ctl s))); [| exact lt_wf].
  intros s' s. apply (rank_step P max_itera env).
Qed.

(** C30: every state a run of [main] reaches is well formed: the counter
    of the loop of line 110 never passes [max_itera], and from the return
    of [ParticleInit] to the [free], [p] points to a live block of at
    least [particle_cnt] records. *)
Theorem main_state_wf {G : Type} `{!RandSource G}
    (P : params) (max_itera : nat) (env : run_env G) (h0 : heap) (s : mstate G) :
  rtc (mstep P max_itera env) (start env h0) s -> frame_ok (particle_cnt P) max_itera s.
Proof. apply frame_ok_reachable. Qed.

(** C31: once [ParticleInit] has returned, [main] always reaches its
    return: no later statement faults and the run is finite. *)
Theorem main_exits_after_init {G : Type} `{!RandSource G}
    (P : params) (max_itera : nat) (env : run_env G) (h0 : heap) (s : mstate G) :
  rtc (mstep P max_itera env) (start env h0) s -> post_init (m_ctl s) = true ->
  exists s', rtc (mstep P max_itera env) s s' /\ m_ctl s' = At_exit.
Proof.
  intros Hr Hp. apply post_init_reaches_exit; [| done].
  exact (frame_ok_reachable P max_itera env h0 s Hr).
Qed.

(** ** Witnesses *)

Lemma main_heap_invariant_witness :
  let s := MState At_init (<[2%positive := [zero_particle]]> demo_heap) (Ptr 2) zero_particle
             (Replay.mkState one_particle_draws) [] in
  rtc (mstep one_particle_params 0 (replay_env one_particle_draws))
      (start (replay_env one_particle_draws) demo_heap) s /\
  heap_inv demo_heap s.
Proof.
  cbv zeta. split.
  - apply rtc_once. vm_compute. reflexivity.
  - apply (main_heap_invariant one_particle_params 0 (replay_env one_particle_draws)).
    apply rtc_once. vm_compute. reflexivity.
Defined.

(** [malloc] fails: the call of [ParticleInit] dereferences NULL. *)
Lemma main_faults_classified_witness :
  let env := mkEnv 0%Z false 64%Z zero_particle (Replay.mkState []) in
  let s := MState At_init demo_heap Null zero_particle (Replay.mkState []) [] in
  (rtc (mstep one_particle_params 0 env) (start env demo_heap) s /\
   step one_particle_params 0 env s = Fault Null_deref) /\
  (Null_deref = Null_deref \/ Null_deref = Write_past_block).
Proof.
  cbv zeta. assert (Hr : rtc (mstep one_particle_params 0 (mkEnv 0%Z false 64%Z zero_particle (Replay.mkState [])))
      (start (mkEnv 0%Z false 64%Z zero_particle (Replay.mkState [])) demo_heap)
      (MState At_init demo_heap Null zero_particle (Replay.mkState []) [])).
  { apply rtc_once. vm_compute. reflexivity. }
  split; [split; [exact Hr | vm_compute; reflexivity] |].
  apply (main_faults_classified _ _ _ demo_heap _ _ Hr). vm_compute. reflexivity.
Defined.

(** The state after [ParticleInit] in a run with one generation. *)
Lemma main_state_wf_witness :
  exists s, rtc (mstep one_particle_params 1 (replay_env one_particle_draws))
              (start (replay_env one_particle_draws) demo_heap) s /\
            frame_ok (particle_cnt one_particle_params) 1 s.
Proof.
  assert (Hr : exists s, rtc (mstep one_particle_params 1 (replay_env one_particle_draws))
                         (start (replay_env one_particle_draws) demo_heap) s).
  { eexists. do 2 (eapply rtc_l; [unfold mstep; vm_compute; reflexivity |]). apply rtc_refl. }
  destruct Hr as [s Hr]. exists s. split; [done |].
  exact (main_state_wf one_particle_params 1 (replay_env one_particle_draws) demo_heap s Hr).
Defined.

Lemma main_exits_after_init_witness :
  exists s, (rtc (mstep one_particle_params 1 (replay_env one_particle_draws))
               (start (replay_env one_particle_draws) demo_heap) s /\ post_init (m_ctl s) = true) /\
            exists s', rtc (mstep one_particle_params 1 (replay_env one_particle_draws)) s s' /\
                       m_ctl s' = At_exit.
Proof.
  assert (Hr : exists s, rtc (mstep one_particle_params 1 (replay_env one_particle_draws))
                         (start (replay_env one_particle_draws) demo_heap) s /\ post_init (m_ctl s) = true).
  { eexists. split.
    - do 2 (eapply rtc_l; [unfold mstep; vm_compute; reflexivity |]). apply rtc_refl.
    - reflexivity. }
  destruct Hr as [s [Hr Hp]]. exists s. split; [done |].
  exact (main_exits_after_init one_particle_params 1 (replay_env one_particle_draws) demo_heap s Hr Hp).
Defined.
