(* ===== verification/Display.v ===== *)
(** * What [main] prints: the two [printf] lines (line 116 and line 203 of
    [src/pso_linReg.c])

    [ParticleDisplay] prints [printf("best : %10.6lf , %lf\n", gbest.position,
    gbest.fitness)] and [main] then [printf("know2: %10.6lf , %lf\n",
    -57.469, fit(-57.469))].  [format_f prec x] is the text of the [%.precf]
    conversion of the C library on the exact value [x]: a minus sign for a
    negative value, the value rounded to [prec] decimals (ties away from
    zero, as the Visual C++ 2008 runtime rounds them; glibc rounds them to
    even), at least one digit before the point; [pad_left w] is the field
    width of [%10.6lf].  [parse_f] reads such a field back.  The theorem:
    reading a printed field gives the rounded value, within half a unit of
    the last printed decimal of the value printed. *)

From Stdlib Require Import QArith Qabs Qround Lqa ZArith String Ascii DecimalString DecimalN.
From stdpp Require Import base list.
From S2P Require Import Prelude Fitness Random Particle Init Driver.

Open Scope Q_scope.

(** [|x| * 10^prec] rounded to an integer, ties away from zero. *)
Definition scaled_round (prec : nat) (x : Q) : N :=
  Z.to_N (Qfloor (Qabs x * inject_Z (10 ^ Z.of_nat prec) + (1 # 2))).

(** The decimal digits of [n], most significant first. *)
Definition digits (n : N) : list ascii :=
  list_ascii_of_string (NilEmpty.string_of_uint (N.to_uint n)).

(** The digits of [n / 10^prec] with the point inserted: zeros are added
    in front so that one digit precedes the point. *)
Definition fixed_digits (prec : nat) (n : N) : list ascii :=
  let ds := repeat "0"%char (S prec - length (digits n)) ++ digits n in
  match prec with
  | O => ds
  | S _ => take (length ds - prec) ds ++ "."%char :: drop (length ds - prec) ds
  end.

(** The [%.precf] conversion of [x]. *)
Definition format_f (prec : nat) (x : Q) : string :=
  string_of_list_ascii
    ((if Qltb x 0 then ["-"%char] else []) ++ fixed_digits prec (scaled_round prec x)).

(** A field width: spaces in front up to [w] characters. *)
Definition pad_left (w : nat) (s : string) : string :=
  string_of_list_ascii (repeat " "%char (w - String.length s) ++ list_ascii_of_string s).

(** [printf("best : %10.6lf , %lf\n", gbest.position, gbest.fitness)]
    (line 203) for the pair [ParticleDisplay] prints. *)
Definition best_line (b : Q * Q) : string :=
  ("best : " ++ pad_left 10 (format_f 6 b.1) ++ " , " ++ format_f 6 b.2 ++ "
")%string.

(** [printf("know2: %10.6lf , %lf\n", -57.469, fit(-57.469))] (line 116). *)
Definition known_line (k : Q * Q) : string :=
  ("know2: " ++ pad_left 10 (format_f 6 k.1) ++ " , " ++ format_f 6 k.2 ++ "
")%string.

(** The standard output of a run, when it reaches its [printf]s. *)
Definition stdout (o : outcome) : option string :=
  match o with
  | Printed b k => Some (best_line b ++ known_line k)%string
  | _ => None
  end.

(** The value a [%.precf] field stands for: the sign, then the rounded
    magnitude over [10^prec]. *)
Definition rounded (prec : nat) (x : Q) : Q :=
  (if Qltb x 0 then -1 else 1) * inject_Z (Z.of_N (scaled_round prec x)) / inject_Z (10 ^ Z.of_nat prec).

(** Leading spaces dropped. *)
Fixpoint skip_spaces (cs : list ascii) : list ascii :=
  match cs with
  | c :: cs' => if Ascii.eqb c " "%char then skip_spaces cs' else cs
  | [] => []
  end.

(** The characters before the first point, and those after it. *)
Fixpoint split_dot (cs : list ascii) : option (list ascii * list ascii) :=
  match cs with
  | [] => None
  | c :: cs' =>
      if Ascii.eqb c "."%char then Some ([], cs')
      else match split_dot cs' with
           | Some (ip, fp) => Some (c :: ip, fp)
           | None => None
           end
  end.

(** An optional minus sign. *)
Definition read_sign (cs : list ascii) : bool * list ascii :=
  match cs with
  | c :: cs' => if Ascii.eqb c "-"%char then (true, cs') else (false, cs)
  | [] => (false, cs)
  end.

(** Reading a field printed by [%w.precf]: leading spaces, an optional
    minus sign, digits with one point. *)
Definition parse_f (s : string) : option Q :=
  let '(neg, cs) := read_sign (skip_spaces (list_ascii_of_string s)) in
  match split_dot cs with
  | None => None
  | Some (ip, fp) =>
      match NilEmpty.uint_of_string (string_of_list_ascii (ip ++ fp)) with
      | None => None
      | Some d =>
          Some ((if neg then -1 else 1) * inject_Z (Z.of_N (N.of_uint d)) /
                inject_Z (10 ^ Z.of_nat (length fp)))
      end
  end.

(** [cs] without its prefix [p], if it starts with it. *)
Fixpoint strip_prefix (p cs : list ascii) : option (list ascii) :=
  match p, cs with
  | [], _ => Some cs
  | c :: p', d :: cs' => if Ascii.eqb c d then strip_prefix p' cs' else None
  | _ :: _, [] => None
  end.

(** Whether [cs] starts with the separator [" , "]. *)
Definition is_sep (cs : list ascii) : bool :=
  match cs with
  | c1 :: c2 :: c3 :: _ => Ascii.eqb c1 " "%char && Ascii.eqb c2 ","%char && Ascii.eqb c3 " "%char
  | _ => false
  end.

(** The characters before the first [" , "], and those after it. *)
Fixpoint split_sep (cs : list ascii) : option (list ascii * list ascii) :=
  match cs with
  | [] => None
  | c :: cs' =>
      if is_sep cs then Some ([], drop 3 cs)
      else match split_sep cs' with
           | Some (l, r) => Some (c :: l, r)
           | None => None
           end
  end.

(** [cs] without its final newline, if it ends with one. *)
Definition strip_newline (cs : list ascii) : option (list ascii) :=
  match rev cs with
  | c :: r => if Ascii.eqb c "010"%char then Some (rev r) else None
  | [] => None
  end.

(** Reading a line [prefix %w.precf , %.precf\n] back into its two values. *)
Definition parse_line (prefix s : string) : option (Q * Q) :=
  match strip_prefix (list_ascii_of_string prefix) (list_ascii_of_string s) with
  | None => None
  | Some rest =>
      match split_sep rest with
      | None => None
      | Some (f1, r) =>
          match strip_newline r with
          | None => None
          | Some f2 =>
              match parse_f (string_of_list_ascii f1), parse_f (string_of_list_ascii f2) with
              | Some a, Some b => Some (a, b)
              | _, _ => None
              end
          end
      end
  end.

(** ** Lemmas *)

(** The characters a decimal number is printed with: none of them is a
    point, a space, a minus sign or a comma. *)
Definition plain_char (c : ascii) : Prop :=
  c <> "."%char /\ c <> " "%char /\ c <> "-"%char /\ c <> ","%char.

(** [k] leading zeros of a decimal digit string. *)
Definition zeros (k : nat) (d : Decimal.uint) : Decimal.uint := Nat.iter k Decimal.D0 d.

Lemma uint_chars_plain (d : Decimal.uint) :
  Forall plain_char (list_ascii_of_string (NilEmpty.string_of_uint d)).
Proof. induction d; cbn; constructor; try done; split_and!; discriminate. Qed.

Lemma zeros_chars (k : nat) (d : Decimal.uint) :
  list_ascii_of_string (NilEmpty.string_of_uint (zeros k d)) =
  repeat "0"%char k ++ list_ascii_of_string (NilEmpty.string_of_uint d).
Proof. induction k as [|k IH]; [done |]. cbn. by rewrite <- IH. Qed.

Lemma zeros_value (k : nat) (d : Decimal.uint) : N.of_uint (zeros k d) = N.of_uint d.
Proof. induction k as [|k IH]; [done |]. exact IH. Qed.

Lemma skip_spaces_repeat (k : nat) (cs : list ascii) :
  skip_spaces (repeat " "%char k ++ cs) = skip_spaces cs.
Proof. induction k as [|k IH]; [done |]. exact IH. Qed.

Lemma skip_spaces_plain (c : ascii) (cs : list ascii) :
  c <> " "%char -> skip_spaces (c :: cs) = c :: cs.
Proof. intros Hc. cbn. by destruct (Ascii.eqb_spec c " "%char). Qed.

Lemma split_dot_app (ip fp : list ascii) :
  Forall (fun c => c <> "."%char) ip -> split_dot (ip ++ "."%char :: fp) = Some (ip, fp).
Proof.
  induction 1 as [|c ip Hc _ IH]; [done |]. cbn.
  destruct (Ascii.eqb_spec c "."%char); [done |]. by rewrite IH.
Qed.

(** The padded digit string of [fixed_digits]: at least [S prec] plain
    characters, the printing of a decimal number with leading zeros. *)
Lemma padded_digits (prec : nat) (n : N) :
  let ds := repeat "0"%char (S prec - length (digits n)) ++ digits n in
  (S prec <= length ds)%nat /\ Forall plain_char ds /\
  ds = list_ascii_of_string (NilEmpty.string_of_uint (zeros (S prec - length (digits n)) (N.to_uint n))).
Proof.
  cbn zeta. split_and!.
  - rewrite length_app, repeat_length. lia.
  - apply Forall_app. split; [| apply uint_chars_plain].
    apply Forall_repeat_same. split_and!; discriminate.
  - by rewrite zeros_chars.
Qed.

Lemma read_sign_plain (neg : bool) (cs : list ascii) :
  (forall c cs', cs = c :: cs' -> plain_char c) ->
  read_sign (skip_spaces ((if neg then ["-"%char] else []) ++ cs)) = (neg, cs).
Proof.
  intros Hc. destruct neg; [done |]. destruct cs as [|c cs']; [done |].
  destruct (Hc c cs' eq_refl) as (_ & Hsp & Hm & _). cbn [app].
  rewrite skip_spaces_plain by done. cbn. by destruct (Ascii.eqb_spec c "-"%char).
Qed.

(** Reading back a signed digit string with the point before its last
    [S p] digits. *)
Lemma parse_fixed (k p : nat) (neg : bool) (ds : list ascii) (d : Decimal.uint) :
  ds = list_ascii_of_string (NilEmpty.string_of_uint d) -> Forall plain_char ds ->
  (S (S p) <= length ds)%nat ->
  parse_f (string_of_list_ascii (repeat " "%char k ++ list_ascii_of_string (string_of_list_ascii
    ((if neg then ["-"%char] else []) ++
     take (length ds - S p) ds ++ "."%char :: drop (length ds - S p) ds)))) =
  Some ((if neg then -1 else 1) * inject_Z (Z.of_N (N.of_uint d)) / inject_Z (10 ^ Z.of_nat (S p))).
Proof.
  intros Hds Hpl Hlen. unfold parse_f.
  rewrite !list_ascii_of_string_of_list_ascii, skip_spaces_repeat.
  destruct ds as [|c0 ds']; [cbn in Hlen; lia |].
  destruct (length (c0 :: ds') - S p)%nat as [|j] eqn:Ej; [cbn in Ej, Hlen; lia |].
  rewrite read_sign_plain.
  2: { intros c cs' [= <- _]. by inversion Hpl. }
  rewrite split_dot_app.
  2: { apply (Forall_impl plain_char); [by apply Forall_take | by intros ? []]. }
  rewrite take_drop, length_drop. replace (length (c0 :: ds') - S j)%nat with (S p) by lia.
  by rewrite Hds, string_of_list_ascii_of_string, NilEmpty.usu.
Qed.

(** Reading a printed field gives the rounded value. *)
Lemma parse_format (w prec : nat) (x : Q) :
  (0 < prec)%nat -> parse_f (pad_left w (format_f prec x)) = Some (rounded prec x).
Proof.
  intros Hp. destruct prec as [|p]; [lia |].
  destruct (padded_digits (S p) (scaled_round (S p) x)) as (Hlen & Hpl & Hds).
  unfold pad_left, format_f, fixed_digits, rounded.
  rewrite (parse_fixed _ p (Qltb x 0) _ _ Hds Hpl Hlen).
  by rewrite zeros_value, DecimalN.Unsigned.of_to.
Qed.

Lemma Qabs_div_pos (a D : Q) : 0 < D -> Qabs (a / D) == Qabs a / D.
Proof.
  intros HD. unfold Qdiv. rewrite Qabs_Qmult, Qabs_Qinv.
  by rewrite (Qabs_pos D) by lra.
Qed.

(** A printed field is within half a unit of its last decimal of the value. *)
Lemma rounded_error (prec : nat) (x : Q) :
  Qabs (rounded prec x - x) <= (1 # 2) / inject_Z (10 ^ Z.of_nat prec).
Proof.
  set (D := inject_Z (10 ^ Z.of_nat prec)).
  assert (HD : 0 < D).
  { unfold D. change 0 with (inject_Z 0). rewrite <- Zlt_Qlt. apply Z.pow_pos_nonneg; lia. }
  set (y := Qabs x * D).
  assert (Hy : 0 <= y) by (apply Qmult_le_0_compat; [apply Qabs_nonneg | lra]).
  unfold rounded, scaled_round. fold D. fold y.
  set (z := Qfloor (y + (1 # 2))).
  assert (Hz0 : (0 <= z)%Z).
  { change 0%Z with (Qfloor 0). apply Qfloor_resp_le. lra. }
  rewrite Z2N.id by exact Hz0.
  pose proof (Qfloor_le (y + (1 # 2))) as H1. pose proof (Qlt_floor (y + (1 # 2))) as H2.
  fold z in H1, H2. rewrite inject_Z_plus in H2. change (inject_Z 1) with 1 in H2.
  assert (HD0 : ~ D == 0) by (intros E; rewrite E in HD; discriminate).
  destruct (Qltb_spec x 0) as [Hx | Hx].
  - assert (E : -1 * inject_Z z / D - x == (y - inject_Z z) / D).
    { unfold y. rewrite Qabs_neg by lra. field. exact HD0. }
    rewrite E, Qabs_div_pos by done.
    apply Qmult_le_compat_r; [apply Qabs_Qle_condition; lra | apply Qinv_le_0_compat; lra].
  - assert (E : 1 * inject_Z z / D - x == (inject_Z z - y) / D).
    { unfold y. rewrite Qabs_pos by lra. field. exact HD0. }
    rewrite E, Qabs_div_pos by done.
    apply Qmult_le_compat_r; [apply Qabs_Qle_condition; lra | apply Qinv_le_0_compat; lra].
Qed.

Lemma list_ascii_of_string_app (s1 s2 : string) :
  list_ascii_of_string (s1 ++ s2) = list_ascii_of_string s1 ++ list_ascii_of_string s2.
Proof. induction s1 as [|c s1 IH]; [done |]. cbn. by rewrite IH. Qed.

Lemma strip_prefix_app (p l : list ascii) : strip_prefix p (p ++ l) = Some l.
Proof. induction p as [|c p IH]; [done |]. cbn. by rewrite Ascii.eqb_refl. Qed.

Lemma split_sep_app (l1 l2 : list ascii) :
  Forall (fun c => c <> ","%char) l1 ->
  split_sep (l1 ++ [" "%char; ","%char; " "%char] ++ l2) = Some (l1, l2).
Proof.
  induction 1 as [|c l1 Hc Hl1 IH]; [done |].
  rewrite <- app_comm_cons. cbn [split_sep]. rewrite IH.
  replace (is_sep _) with false; [done |].
  destruct l1 as [|x l1]; cbn; [by destruct (Ascii.eqb c " "%char) |].
  inversion Hl1 as [|? ? Hx _]; subst. destruct (Ascii.eqb_spec x ","%char); [done |].
  destruct (l1 ++ _); [done |]. by destruct (Ascii.eqb c " "%char).
Qed.

Lemma strip_newline_app (l : list ascii) : strip_newline (l ++ ["010"%char]) = Some l.
Proof. unfold strip_newline. rewrite rev_unit. cbn. by rewrite rev_involutive. Qed.

Lemma pad_left_0 (s : string) : pad_left 0 s = s.
Proof. unfold pad_left. cbn. apply string_of_list_ascii_of_string. Qed.

(** A printed field holds no comma. *)
Lemma format_no_comma (w prec : nat) (x : Q) :
  Forall (fun c => c <> ","%char) (list_ascii_of_string (pad_left w (format_f prec x))).
Proof.
  unfold pad_left, format_f, fixed_digits. rewrite !list_ascii_of_string_of_list_ascii.
  destruct (padded_digits prec (scaled_round prec x)) as (_ & Hpl & _).
  set (ds := repeat "0"%char (S prec - length (digits (scaled_round prec x))) ++
              digits (scaled_round prec x)) in *.
  assert (Hds : Forall (fun c => c <> ","%char) ds) by (apply (Forall_impl _ _ _ Hpl); by intros ? (_ & _ & _ & ?)).
  apply Forall_app. split.
  { apply Forall_repeat_same. discriminate. }
  apply Forall_app. split; [destruct (Qltb x 0); repeat constructor; discriminate |].
  destruct prec; [done |].
  apply Forall_app. split; [by apply Forall_take | constructor; [discriminate | by apply Forall_drop]].
Qed.

(** Reading back a line printed by [prefix %w.6lf , %lf\n]. *)
Lemma parse_printed_line (prefix : string) (w : nat) (b : Q * Q) :
  parse_line prefix (prefix ++ pad_left w (format_f 6 b.1) ++ " , " ++ format_f 6 b.2 ++ "
")%string = Some (rounded 6 b.1, rounded 6 b.2).
Proof.
  unfold parse_line. rewrite !list_ascii_of_string_app, strip_prefix_app.
  change (list_ascii_of_string " , ") with [" "%char; ","%char; " "%char].
  rewrite split_sep_app by apply format_no_comma.
  rewrite strip_newline_app, !string_of_list_ascii_of_string.
  rewrite parse_format by lia. rewrite <- (pad_left_0 (format_f 6 b.2)).
  by rewrite parse_format by lia.
Qed.

(** ** Properties of the output *)

(** C28: the line [ParticleDisplay] prints reads back as the position and
    the fitness of [gbest] rounded to six decimals, each within [5 * 10^-7]
    of the value: [printf] then reading the line is a round trip up to the
    rounding. *)
Theorem ParticleDisplay_line_roundtrip {G : Type} (st : world G) :
  parse_line "best : " (best_line (ParticleDisplay st)) =
    Some (rounded 6 (position (gbest st)), rounded 6 (fitness (gbest st))) /\
  Qabs (rounded 6 (position (gbest st)) - position (gbest st)) <= (1 # 2) / inject_Z (10 ^ 6) /\
  Qabs (rounded 6 (fitness (gbest st)) - fitness (gbest st)) <= (1 # 2) / inject_Z (10 ^ 6).
Proof.
  split_and!; [apply (parse_printed_line "best : " 10 (ParticleDisplay st)) | apply rounded_error ..].
Qed.

