(* ===== verification/Binary64.v ===== *)
(** * The program's arithmetic in binary64 (lines 50, 116, 164-170 of
    [src/pso_linReg.c])

    The rest of the library computes on exact rationals.  The C program
    computes on [double]s: every [+] and [*] is rounded to binary64 (the
    Visual C++ 2008 runtime sets the x87 unit to 53-bit precision, so each
    operation rounds as binary64 does), and its literals [0.8] and [-57.469]
    are the nearest doubles.  Rocq's primitive floats are binary64 with
    round-to-nearest-even, so [fitF] is line 50 as the machine runs it and
    [Q_of_float] the exact value of a finite double, which [printf]'s [%f]
    then rounds ([Display.format_f]).  The clamps of lines 165-170 are
    written over floats too: their comparisons are false on a NaN.

    The theorem: the line [main] prints at line 116 is the same text,
    [know2: -57.469000 , 390245.791738], whether the arithmetic is exact or
    binary64, so the exact model's prediction of that output does not
    depend on rounding. *)

From Stdlib Require Import Floats QArith ZArith String Ascii.
From S2P Require Import Prelude Fitness Display.

Open Scope Q_scope.

(** Line 50, [fabs(8000.0 + x*(-10000.0+x*(-0.8+x)))], in binary64. *)
#[warnings="-inexact-float"]
Definition fitF (x : float) : float :=
  PrimFloat.abs (8000 + x * (-10000 + x * (-0.8 + x)))%float.

(** The double literal [-57.469] of lines 116 and 44. *)
#[warnings="-inexact-float"]
Definition known_xF : float := (-57.469)%float.

(** The exact value of a finite double; [None] for an infinity or a NaN. *)
Definition Q_of_float (f : float) : option Q :=
  match Prim2SF f with
  | S754_zero _ => Some 0
  | S754_finite s m e =>
      let v := if (0 <=? e)%Z then inject_Z (Zpos m * 2 ^ e)
               else inject_Z (Zpos m) / inject_Z (2 ^ (- e)) in
      Some (if s then - v else v)
  | _ => None
  end.

(** Line 116 as the machine prints it. *)
Definition known_lineF : option string :=
  match Q_of_float known_xF, Q_of_float (fitF known_xF) with
  | Some x, Some fx => Some (known_line (x, fx))
  | _, _ => None
  end.

(** Lines 165-166 over doubles: [if(v<-max_v) v=-max_v; else if(v>max_v) v=max_v;]. *)
Definition clamp_velocityF (max_v v : float) : float :=
  if PrimFloat.ltb v (- max_v)%float then (- max_v)%float
  else if PrimFloat.ltb max_v v then max_v else v.

(** Lines 169-170 over doubles. *)
Definition clamp_positionF (max_pos min_pos pos : float) : float :=
  if PrimFloat.ltb max_pos pos then max_pos
  else if PrimFloat.ltb pos min_pos then min_pos else pos.

(** ** Lemmas *)

(** The double nearest to [-57.469] is not [-57.469]: the binary64 program
    evaluates [fit] at a slightly different point than the exact model. *)
Lemma known_xF_inexact : Q_of_float known_xF <> Some known_x.
Proof. vm_compute. discriminate. Qed.

(** The clamps do not catch a NaN: a NaN velocity or position passes both
    tests of each clamp unchanged, so the bounds of the state invariant
    hold only for the finite values the default parameters produce. *)
Lemma clamps_pass_nan :
  PrimFloat.is_nan (clamp_velocityF 200 nan) = true /\
  PrimFloat.is_nan (clamp_positionF 100 (-100) nan) = true.
Proof. split; vm_compute; reflexivity. Qed.

(** ** Properties *)

(** The line [main] prints at line 116 is the same text whether the
    arithmetic is binary64, as the machine runs it, or exact, as the rest
    of the library models it: [know2: -57.469000 , 390245.791738]. *)
Lemma known_line_binary64 :
  known_lineF = Some (known_line (known_x, fit known_x)) /\
  known_line (known_x, fit known_x) = "know2: -57.469000 , 390245.791738
"%string.
Proof. split; vm_compute; reflexivity. Qed.
